(** * Verification of the deck pipeline of what-to-watch

    Shallow embedding of [src/app/api/deck/route.ts]: the seeded shuffle,
    the intent extractor, the genre weights, the scorer, the candidate
    filters and the deck assembly of [POST].

    Modelling choices:
    - JS numbers that the code only compares (vote counts, popularity,
      vote averages) are rationals [Q]: every finite double is one.
      Scores, which go through [Math.log10], are real numbers [R]: the
      scorer is modelled over the reals, without floating-point rounding.
    - JS strings are Stdlib [string]s (ASCII); [charCodeAt] is the ASCII
      code and [toLowerCase] the ASCII lower-casing.
    - 32-bit integer operations ([Math.imul], [^], [|], [>>>]) act on
      [Z] values kept in [0, 2^32) (the uint32 bits of the int32 value).
    - A JS [Map] is an association list kept in insertion order; [set]
      on a present key replaces the value in place, as JS does. *)

From Stdlib Require Import ZArith QArith Qreals Reals Lra Lia List String Ascii Bool Sorted.
From stdpp Require Import base list strings pretty.
Import ListNotations.

Open Scope Z_scope.

(** ** 32-bit integer arithmetic *)

Definition u32 (x : Z) : Z := x mod 2 ^ 32.

(** [Math.imul a b] on uint32 representatives. *)
Definition imul (a b : Z) : Z := u32 (a * b).

(** ** [hashStringToSeed]: FNV-1a style hash *)

Definition charCodeAt (c : ascii) : Z := Z.of_N (N_of_ascii c).

(** One loop iteration: [h ^= str.charCodeAt(i); h = Math.imul(h, 16777619)]. *)
Definition fnv_step (h : Z) (c : ascii) : Z :=
  imul (Z.lxor h (charCodeAt c)) 16777619.

Fixpoint fnv_loop (h : Z) (s : string) : Z :=
  match s with
  | EmptyString => h
  | String c s' => fnv_loop (fnv_step h c) s'
  end.

(** [let h = 2166136261; ...; return h >>> 0]. *)
Definition hashStringToSeed (str : string) : Z :=
  u32 (fnv_loop 2166136261 str).

(** ** [mulberry32]

    The closure's captured [seed] is the generator state. One call
    [rand()] returns [(u, seed')] where the JS result is [u / 2^32] and
    [seed' = seed + 0x6d2b79f5] (the JS [seed += ...], no wrap-around). *)

Definition mulberry32_step (seed : Z) : Z * Z :=
  let seed' := seed + 1831565813 in
  let t0 := u32 seed' in
  (* t = Math.imul(t ^ (t >>> 15), t | 1) *)
  let t1 := imul (Z.lxor t0 (Z.shiftr t0 15)) (Z.lor t0 1) in
  (* t ^= t + Math.imul(t ^ (t >>> 7), t | 61) *)
  let t2 := Z.lxor t1 (u32 (t1 + imul (Z.lxor t1 (Z.shiftr t1 7)) (Z.lor t1 61))) in
  (* ((t ^ (t >>> 14)) >>> 0) / 4294967296 *)
  (Z.lxor t2 (Z.shiftr t2 14), seed').

(** ** [shuffleInPlace]

    [Math.floor(rand() * (i + 1))] with [rand() = u / 2^32]: the product
    [u * (i+1)] is below [2^53] for the bucket sizes used, so the double
    computation is exact and equals the integer division below. *)

Definition rand_index (u : Z) (i : nat) : nat :=
  Z.to_nat ((u * Z.of_nat (S i)) / 2 ^ 32).

(** [[arr[i], arr[j]] = [arr[j], arr[i]]]: both reads happen before the
    writes, [arr[i]] is written first. Indices are in range here (see
    [rand_index_le]); out of range the list is left unchanged. *)
Definition swap {A} (i j : nat) (arr : list A) : list A :=
  match arr !! i, arr !! j with
  | Some xi, Some xj => <[j := xi]> (<[i := xj]> arr)
  | _, _ => arr
  end.

(** The loop [for (let i = k; i > 0; i--)], threading the generator. *)
Fixpoint shuffle_loop {A} (i : nat) (arr : list A) (g : Z) : list A * Z :=
  match i with
  | O => (arr, g)
  | S i' =>
      let '(u, g') := mulberry32_step g in
      shuffle_loop i' (swap (S i') (rand_index u (S i')) arr) g'
  end.

Definition shuffleInPlace {A} (arr : list A) (g : Z) : list A * Z :=
  shuffle_loop (length arr - 1) arr g.

(** ** Data model *)

(** [TmdbMovie]; the fields the code reads through [??] or a truthiness
    test are optional. *)
Record TmdbMovie := mkMovie {
  id : Z;
  title : string;
  overview : option string;
  release_date : option string;
  genre_ids : option (list Z);
  vote_average : option Q;
  vote_count : option Q;
  popularity : option Q;
  poster_path : option string
}.

Definition GENRE_animation : Z := 16.
Definition GENRE_comedy : Z := 35.
Definition GENRE_horror : Z := 27.
Definition GENRE_mystery : Z := 9648.

Record Signature := mkSignature {
  anime : bool;
  comedy : bool;
  horror : bool;
  mystery : bool;
  trippy : bool;
  underrated : bool;
  badMovie : bool
}.

(** [String(n)] for an integer number. *)
Definition String_of_Z (n : Z) : string := pretty n.

(** [m.genre_ids ?? []] *)
Definition genres_of (m : TmdbMovie) : list Z :=
  match genre_ids m with Some gs => gs | None => [] end.

(** ** JS [Map] with number keys, in insertion order *)

Module JSMap.

Definition t (V : Type) := list (Z * V).

Definition empty {V} : t V := [].

Fixpoint get {V} (k : Z) (m : t V) : option V :=
  match m with
  | [] => None
  | (k', v) :: m' => if Z.eqb k k' then Some v else get k m'
  end.

Fixpoint set {V} (k : Z) (v : V) (m : t V) : t V :=
  match m with
  | [] => [(k, v)]
  | (k', v') :: m' => if Z.eqb k k' then (k, v) :: m' else (k', v') :: set k v m'
  end.

Definition values {V} (m : t V) : list V := map snd m.

Definition keys {V} (m : t V) : list Z := map fst m.

End JSMap.

(** [map.get(k) ?? 0] *)
Definition count_get (m : JSMap.t Z) (k : Z) : Z :=
  match JSMap.get k m with Some v => v | None => 0 end.

(** [Set<string>.has] *)
Definition set_has (s : list string) (x : string) : bool :=
  existsb (String.eqb x) s.

(** ** [makeSignature] *)

(** A character is a Latin-1 code unit; [toLowerCase] maps A-Z and the
    Latin-1 capitals U+00C0-U+00DE (except U+00D7) to their lower case. *)
Definition lower_ascii (c : ascii) : ascii :=
  let n := nat_of_ascii c in
  if ((65 <=? n)%nat && (n <=? 90)%nat)
     || ((192 <=? n)%nat && (n <=? 222)%nat && negb (n =? 215)%nat)
  then ascii_of_nat (n + 32) else c.

(** [String.prototype.toLowerCase] on Latin-1 text. *)
Fixpoint toLowerCase (s : string) : string :=
  match s with
  | EmptyString => EmptyString
  | String c s' => String (lower_ascii c) (toLowerCase s')
  end.

(** [t.includes(w)]: [w] occurs in [t] at some position. *)
Fixpoint includes (t w : string) : bool :=
  String.prefix w t ||
  match t with
  | EmptyString => false
  | String _ t' => includes t' w
  end.

Definition hasAny (t : string) (words : list string) : bool :=
  existsb (fun w => includes t w) words.

Definition anime_words : list string := ["anime"; "shonen"; "isekai"; "slice of life"].
Definition comedy_words : list string :=
  ["comedy"; "funny"; "humour"; "humor"; "laugh"; "satire"].
Definition horror_words : list string :=
  ["horror"; "scary"; "slasher"; "haunting"; "ghost"; "demon"].
Definition mystery_words : list string :=
  ["mystery"; "detective"; "whodunit"; "investigation"; "case"].
Definition trippy_words : list string :=
  ["trippy"; "psychedelic"; "surreal"; "mind-bending"; "mind bending"; "weird"; "acid"].
Definition underrated_words : list string :=
  ["underrated"; "hidden gem"; "hidden gems"; "gem"; "gems"; "under the radar"].
Definition badMovie_words : list string :=
  ["bad movie"; "so bad"; "trash"; "terrible"; "awful"; "guilty pleasure"].

Definition makeSignature (q : string) : Signature :=
  let t := toLowerCase q in
  {| anime := hasAny t anime_words;
     comedy := hasAny t comedy_words;
     horror := hasAny t horror_words;
     mystery := hasAny t mystery_words;
     trippy := hasAny t trippy_words;
     underrated := hasAny t underrated_words;
     badMovie := hasAny t badMovie_words |}.

(** ** [buildGenreWeights] *)

(** [for (const g of genres) counts.set(g, (counts.get(g) ?? 0) + 1)] *)
Definition bump_all (gs : list Z) (counts : JSMap.t Z) : JSMap.t Z :=
  fold_left (fun c g => JSMap.set g (count_get c g + 1) c) gs counts.

Definition weights_step (likeSet passSet : list string)
    (acc : JSMap.t Z * JSMap.t Z) (m : TmdbMovie) : JSMap.t Z * JSMap.t Z :=
  let '(likeCounts, passCounts) := acc in
  let idStr := String_of_Z (id m) in
  let genres := genres_of m in
  let likeCounts' := if set_has likeSet idStr then bump_all genres likeCounts else likeCounts in
  let passCounts' := if set_has passSet idStr then bump_all genres passCounts else passCounts in
  (likeCounts', passCounts').

Definition buildGenreWeights (mergedMovies : list TmdbMovie) (likes passes : list string)
    : JSMap.t Z * JSMap.t Z :=
  fold_left (weights_step likes passes) mergedMovies (JSMap.empty, JSMap.empty).

(** ** [scoreMovie] *)

Definition log10 (x : R) : R := (ln x / ln 10)%R.

(** [x ?? 0] for a numeric field, as a real number. *)
Definition num_or_0 (x : option Q) : R :=
  match x with Some q => Q2R q | None => 0%R end.

(** [new Set(m.genre_ids ?? []).has(g)] *)
Definition genre_has (m : TmdbMovie) (g : Z) : bool :=
  existsb (Z.eqb g) (genres_of m).

(** [(m.overview ?? "").toLowerCase()] *)
Definition overview_text (m : TmdbMovie) : string :=
  toLowerCase (match overview m with Some o => o | None => EmptyString end).

(** The taste-shaping loop [for (const g of genresArr) { s += likeBoost; s -= passPenalty; }]. *)
Definition taste_loop (likeCounts passCounts : JSMap.t Z) (gs : list Z) (s : R) : R :=
  fold_left (fun s g =>
    let likeBoost := IZR (count_get likeCounts g * 2) in
    let passPenalty := IZR (count_get passCounts g * 1) in
    ((s + likeBoost) - passPenalty)%R) gs s.

Local Open Scope R_scope.

Definition scoreMovie (m : TmdbMovie) (sig : Signature)
    (likeCounts passCounts : JSMap.t Z) : R :=
  let s := 0 in
  let voteAvg := num_or_0 (vote_average m) in
  let voteCount := num_or_0 (vote_count m) in
  let popularity := num_or_0 (popularity m) in
  let s := s + voteAvg * 2 in
  let s := s + log10 (voteCount + 1) * 3 in
  let s := if comedy sig && genre_has m GENRE_comedy then s + 18 else s in
  let s := if horror sig && genre_has m GENRE_horror then s + 18 else s in
  let s := if mystery sig && genre_has m GENRE_mystery then s + 14 else s in
  let s := if anime sig && genre_has m GENRE_animation then s + 10 else s in
  let s := if underrated sig then s + Rmax 0 (30 - log10 (popularity + 1) * 10) else s in
  let s := if badMovie sig
           then (s - voteAvg * 2) + log10 (popularity + 1) * 2 else s in
  let text := overview_text m in
  let s := if trippy sig && (includes text "surreal" || includes text "psychedelic"
                             || includes text "strange")
           then s + 6 else s in
  taste_loop likeCounts passCounts (genres_of m) s.

(** The additive formula of the spec (section 4.4), written from its words. *)
Definition bonus (b : bool) (x : R) : R := if b then x else 0.

Definition score_formula (m : TmdbMovie) (sig : Signature)
    (likeCounts passCounts : JSMap.t Z) : R :=
  let va := num_or_0 (vote_average m) in
  let vc := num_or_0 (vote_count m) in
  let pop := num_or_0 (popularity m) in
  let text := overview_text m in
  2 * va + 3 * log10 (vc + 1)
  + bonus (comedy sig && genre_has m 35%Z) 18
  + bonus (horror sig && genre_has m 27%Z) 18
  + bonus (mystery sig && genre_has m 9648%Z) 14
  + bonus (anime sig && genre_has m 16%Z) 10
  + bonus (underrated sig) (Rmax 0 (30 - 10 * log10 (pop + 1)))
  + bonus (badMovie sig) (- 2 * va + 2 * log10 (pop + 1))
  + bonus (trippy sig && (includes text "surreal" || includes text "psychedelic"
                          || includes text "strange")) 6
  + fold_right Rplus 0
      (map (fun g => 2 * IZR (count_get likeCounts g) - 1 * IZR (count_get passCounts g))
           (genres_of m)).

Local Close Scope R_scope.

(** ** Request body *)

Set Warnings "-register-all".

(** A parsed JSON value; numbers are the integer ones. *)
Inductive json :=
  | JNull
  | JBool (b : bool)
  | JNum (n : Z)
  | JStr (s : string)
  | JArr (xs : list json)
  | JObj (fields : list (string * json)).

(** [obj[key]] of a parsed object: [JSON.parse] keeps the last duplicate. *)
Definition lookup_field (key : string) (fields : list (string * json)) : option json :=
  fold_left (fun acc kv => if String.eqb (fst kv) key then Some (snd kv) else acc)
    fields None.

(** [getStringField]: only an object has the key ([key in arr] is false
    for the keys used, a primitive or [null] gives [null]). *)
Definition getStringField (obj : json) (key : string) : option string :=
  match obj with
  | JObj fs => match lookup_field key fs with Some (JStr s) => Some s | _ => None end
  | _ => None
  end.

Definition getNumberField (obj : json) (key : string) : option Z :=
  match obj with
  | JObj fs => match lookup_field key fs with Some (JNum n) => Some n | _ => None end
  | _ => None
  end.

(** [Array.isArray(body[key]) ? body[key].filter(x => typeof x === "string") : []] *)
Definition only_strings (xs : list json) : list string :=
  flat_map (fun x => match x with JStr s => [s] | _ => [] end) xs.

Definition getStringArray (obj : json) (key : string) : list string :=
  match obj with
  | JObj fs => match lookup_field key fs with Some (JArr xs) => only_strings xs | _ => [] end
  | _ => []
  end.

(** [String.prototype.trim]: the white space of the Latin-1 range. *)
Definition is_ws (c : ascii) : bool :=
  let n := nat_of_ascii c in
  ((9 <=? n)%nat && (n <=? 13)%nat) || (n =? 32)%nat || (n =? 160)%nat.

Fixpoint drop_ws (l : list ascii) : list ascii :=
  match l with
  | c :: l' => if is_ws c then drop_ws l' else l
  | [] => []
  end.

Definition trim (s : string) : string :=
  string_of_list_ascii (rev (drop_ws (rev (drop_ws (list_ascii_of_string s))))).

Record Request := mkRequest {
  q : string;
  reroll : Z;
  likes : list string;
  passes : list string
}.

(** [body = await request.json()] with [catch { body = {} }]: [None] is a
    body that is absent or does not parse. *)
Definition parse_body (raw : option json) : json :=
  match raw with Some j => j | None => JObj [] end.

Definition parse_request (raw : option json) : Request :=
  let body := parse_body raw in
  let qRaw := match getStringField body "q" with Some s => s | None => EmptyString end in
  let rerollFromBody := getNumberField body "reroll" in
  {| q := trim qRaw;
     reroll := match rerollFromBody with Some n => n | None => 0 end;
     likes := getStringArray body "likes";
     passes := getStringArray body "passes" |}.

(** ** Candidate source: [fetchDiscoverCustom] parameters *)

Record DiscoverParams := mkParams {
  page : Z;
  sort_by : string;
  vote_count_gte : option Z;
  vote_average_gte : option Q;
  with_genres : option string;
  primary_release_date_gte : option string;
  primary_release_date_lte : option string
}.

Definition genreCsv (sig : Signature) : string :=
  if comedy sig then String_of_Z GENRE_comedy
  else if horror sig then String_of_Z GENRE_horror
  else if mystery sig then String_of_Z GENRE_mystery
  else if anime sig then String_of_Z GENRE_animation
  else EmptyString.

(** One slice: [page], [vote_average.desc], the era [from]..[to]. *)
Definition slice_params (sig : Signature) (pg : Z) (from to : string) : DiscoverParams :=
  {| page := pg;
     sort_by := "vote_average.desc";
     vote_count_gte := Some (if underrated sig then 50 else 200);
     vote_average_gte := Some (13 # 2)%Q;
     with_genres := (let g := genreCsv sig in
                     if String.eqb g EmptyString then None else Some g);
     primary_release_date_gte := Some from;
     primary_release_date_lte := Some to |}.

(** The four slices, in the order of the [Promise.all] array. *)
Definition slices_params (sig : Signature) (year : Z) : list DiscoverParams :=
  let sliceAStart := (String_of_Z (year - 30) ++ "-01-01")%string in
  let sliceAEnd := (String_of_Z (year - 20) ++ "-12-31")%string in
  let sliceBStart := (String_of_Z (year - 20) ++ "-01-01")%string in
  let sliceBEnd := (String_of_Z (year - 10) ++ "-12-31")%string in
  [slice_params sig 1 sliceAStart sliceAEnd; slice_params sig 2 sliceAStart sliceAEnd;
   slice_params sig 1 sliceBStart sliceBEnd; slice_params sig 2 sliceBStart sliceBEnd].

(** ** Candidate aggregation *)

(** [const merged = [...sliceA1, ...sliceA2, ...sliceB1, ...sliceB2]] *)
Definition merge_slices (slices : list (list TmdbMovie)) : list TmdbMovie :=
  concat slices.

(** [for (const m of merged) byId.set(m.id, m)] *)
Definition dedupe_by_id (merged : list TmdbMovie) : JSMap.t TmdbMovie :=
  fold_left (fun byId m => JSMap.set (id m) m byId) merged JSMap.empty.

Definition minVotes (sig : Signature) : Q := if underrated sig then 50%Q else 200%Q.

(** [.filter((m) => m.poster_path)]: [null] and [""] are falsy. *)
Definition has_poster (m : TmdbMovie) : bool :=
  match poster_path m with
  | Some p => negb (String.eqb p EmptyString)
  | None => false
  end.

Definition qnum_or_0 (x : option Q) : Q := match x with Some v => v | None => 0%Q end.

Definition votes_ok (sig : Signature) (m : TmdbMovie) : bool :=
  Qle_bool (minVotes sig) (qnum_or_0 (vote_count m)).

(** [(m.popularity ?? 0) <= maxPopularity] with [maxPopularity] 60 in gems
    mode and [Infinity] otherwise (every finite number is below it). *)
Definition popularity_ok (sig : Signature) (m : TmdbMovie) : bool :=
  if underrated sig then Qle_bool (qnum_or_0 (popularity m)) 60%Q else true.

Definition not_seen (seenIds : list string) (m : TmdbMovie) : bool :=
  negb (set_has seenIds (String_of_Z (id m))).

Definition hygiene_candidates (sig : Signature) (merged : list TmdbMovie)
    (likes passes : list string) : list TmdbMovie :=
  let seenIds := likes ++ passes in
  List.filter (not_seen seenIds)
    (List.filter (popularity_ok sig)
       (List.filter (votes_ok sig)
          (List.filter has_poster (JSMap.values (dedupe_by_id merged))))).

Definition intentCount (sig : Signature) : nat :=
  length (List.filter (fun b : bool => b) [anime sig; comedy sig; horror sig; mystery sig]).

Definition isSingleGenreIntent (sig : Signature) : bool :=
  (intentCount sig =? 1)%nat && negb (underrated sig) && negb (badMovie sig).

(** The single-genre restriction with its fallback. *)
Definition genre_restrict (sig : Signature) (candidates : list TmdbMovie) : list TmdbMovie :=
  if isSingleGenreIntent sig then
    let f := candidates in
    let f := if comedy sig then List.filter (fun m => genre_has m GENRE_comedy) f else f in
    let f := if horror sig then List.filter (fun m => genre_has m GENRE_horror) f else f in
    let f := if mystery sig then List.filter (fun m => genre_has m GENRE_mystery) f else f in
    let f := if anime sig then List.filter (fun m => genre_has m GENRE_animation) f else f in
    if (length f <? 25)%nat then candidates else f
  else candidates.

(** ** Ranking *)

(** [.sort((a, b) => b.s - a.s)]: a stable sort, highest score first;
    [x] goes after every element whose score is not below its own. *)
Fixpoint insert_desc {A} (x : A * R) (l : list (A * R)) : list (A * R) :=
  match l with
  | [] => [x]
  | y :: l' => if Rlt_dec (snd y) (snd x) then x :: l else y :: insert_desc x l'
  end.

Definition sort_desc {A} (l : list (A * R)) : list (A * R) :=
  fold_left (fun acc x => insert_desc x acc) l [].

Definition rank (sig : Signature) (likeCounts passCounts : JSMap.t Z)
    (filtered : list TmdbMovie) : list TmdbMovie :=
  map fst (sort_desc (map (fun m => (m, scoreMovie m sig likeCounts passCounts)) filtered)).

(** ** Deck assembly *)

(** The top-up loop: [for (const m of ranked) { if (picked.length >= 10) break; ... }]. *)
Fixpoint topup (ranked picked : list TmdbMovie) (seen : list Z) : list TmdbMovie :=
  match ranked with
  | [] => picked
  | m :: rest =>
      if (10 <=? length picked)%nat then picked
      else if existsb (Z.eqb (id m)) seen then topup rest picked seen
      else topup rest (picked ++ [m]) (id m :: seen)
  end.

(** The buckets, shuffled with one generator: [topBucket] first. *)
Definition shuffle_buckets (ranked : list TmdbMovie) (seed : Z)
    : list TmdbMovie * list TmdbMovie * Z :=
  let topBucket := firstn 60 ranked in
  let midBucket := firstn 160 (skipn 60 ranked) in
  let '(top', g1) := shuffleInPlace topBucket seed in
  let '(mid', g2) := shuffleInPlace midBucket g1 in
  (top', mid', g2).

(** [[...topBucket.slice(0, 6), ...midBucket.slice(0, 4)]] *)
Definition first_picks (ranked : list TmdbMovie) (seed : Z) : list TmdbMovie :=
  let '(top', mid', _) := shuffle_buckets ranked seed in
  firstn 6 top' ++ firstn 4 mid'.

Definition assemble (ranked : list TmdbMovie) (seed : Z) : list TmdbMovie :=
  let picked := first_picks ranked seed in
  let picked := if (length picked <? 10)%nat
                then topup ranked picked (map id picked) else picked in
  firstn 10 picked.

(** [`${sessionId}:${day}:${reroll}`] *)
Definition seed_string (sessionId day : string) (reroll : Z) : string :=
  (sessionId ++ ":" ++ day ++ ":" ++ String_of_Z reroll)%string.

(** ** Output cards *)

(** The result of [Number(str)]. *)
Inductive JSNumber :=
  | NFinite (v : Q)
  | NNaN
  | NPosInf
  | NNegInf.

Inductive CardKind := KMovie | KTv.

Record DeckCard := mkCard {
  card_id : string;
  card_title : string;
  year : Q;
  kind : CardKind;
  reason : string;
  posterPath : option string
}.

Definition reason_of (sig : Signature) : string :=
  if underrated sig then "Underrated pick"
  else if badMovie sig then "So-bad-it’s-good energy"
  else if trippy sig then "Trippy vibes match"
  else if comedy sig then "Comedy match"
  else if horror sig then "Horror match"
  else if mystery sig then "Mystery match"
  else "Curated pick".

(** The upstream catalog: the results of [fetchDiscoverCustom] for each
    parameter tuple (a snapshot; its failures are not modelled). *)
Definition Catalog := DiscoverParams -> list TmdbMovie.

Section Pipeline.

(** [Number(str)], the JS string-to-number conversion. *)
Variable StringToNumber : string -> JSNumber.

Definition yearFromDate (dateStr : option string) : Q :=
  match dateStr with
  | None => 0%Q
  | Some s =>
      if String.eqb s EmptyString then 0%Q
      else match StringToNumber (substring 0 4 s) with
           | NFinite y => y
           | _ => 0%Q
           end
  end.

Definition to_card (sig : Signature) (m : TmdbMovie) : DeckCard :=
  {| card_id := String_of_Z (id m);
     card_title := title m;
     year := yearFromDate (release_date m);
     kind := KMovie;
     reason := reason_of sig;
     posterPath := poster_path m |}.

(** The movies of the deck, for a given session id and clock. *)
Definition pick_movies (sessionId day : string) (curYear : Z) (fetch : Catalog)
    (req : Request) : list TmdbMovie :=
  let sig := makeSignature (q req) in
  let merged := merge_slices (map fetch (slices_params sig curYear)) in
  let '(likeCounts, passCounts) := buildGenreWeights merged (likes req) (passes req) in
  let candidates := hygiene_candidates sig merged (likes req) (passes req) in
  let filtered := genre_restrict sig candidates in
  let seed := hashStringToSeed (seed_string sessionId day (reroll req)) in
  let ranked := rank sig likeCounts passCounts filtered in
  assemble ranked seed.

Definition POST_cards (sessionId day : string) (curYear : Z) (fetch : Catalog)
    (raw : option json) : list DeckCard :=
  let req := parse_request raw in
  map (to_card (makeSignature (q req))) (pick_movies sessionId day curYear fetch req).

(** [POST] with its sources of nondeterminism: without a [sessionId]
    cookie (or with an empty one) a fresh [crypto.randomUUID()] is used.
    The relation records the session id the run used. *)
Inductive POST_run (cookie : option string) (day : string) (curYear : Z)
    (fetch : Catalog) (raw : option json) : string -> list DeckCard -> Prop :=
  | POST_with_cookie sid :
      cookie = Some sid -> sid <> EmptyString ->
      POST_run cookie day curYear fetch raw sid (POST_cards sid day curYear fetch raw)
  | POST_fresh_session uuid :
      (cookie = None \/ cookie = Some EmptyString) ->
      POST_run cookie day curYear fetch raw uuid (POST_cards uuid day curYear fetch raw).

End Pipeline.

(** ** Spec-side notions used in the statements *)

(** Exactly one of the four genre flags is set (spec section 4.2). *)
Definition exactly_one_genre_flag (sig : Signature) : bool :=
  (anime sig && negb (comedy sig) && negb (horror sig) && negb (mystery sig))
  || (negb (anime sig) && comedy sig && negb (horror sig) && negb (mystery sig))
  || (negb (anime sig) && negb (comedy sig) && horror sig && negb (mystery sig))
  || (negb (anime sig) && negb (comedy sig) && negb (horror sig) && mystery sig).

(** anime -> 16, comedy -> 35, horror -> 27, mystery -> 9648. *)
Definition matching_genre (sig : Signature) : Z :=
  if anime sig then 16 else if comedy sig then 35 else if horror sig then 27 else 9648.

(** ** The response of [POST] and its session cookie *)

(** A double quote, for the JSON text of [JSON.stringify]. *)
Definition dq : string := String (Ascii.ascii_of_nat 34) EmptyString.

Definition json_bool (b : bool) : string := if b then "true" else "false".

(** [JSON.stringify(sig)]: the fields in the order of the object literal. *)
Definition sig_json (sig : Signature) : string :=
  let field k b := (dq ++ k ++ dq ++ ":" ++ json_bool b)%string in
  ("{" ++ field "anime" (anime sig) ++ "," ++ field "comedy" (comedy sig) ++ ","
   ++ field "horror" (horror sig) ++ "," ++ field "mystery" (mystery sig) ++ ","
   ++ field "trippy" (trippy sig) ++ "," ++ field "underrated" (underrated sig) ++ ","
   ++ field "badMovie" (badMovie sig) ++ "}")%string.

Record Response := mkResponse {
  interpretedAs : string;
  resp_cards : list DeckCard;
  (** [response.cookies.set("sessionId", sessionId, ...)], when done *)
  resp_set_cookie : option string
}.

(** [POST] with its response: a request without a (non-empty) [sessionId]
    cookie gets a fresh [crypto.randomUUID()] (36 characters), which the
    response sets as the cookie. *)
Inductive POST_respond (StringToNumber : string -> JSNumber) (cookie : option string)
    (day : string) (curYear : Z) (fetch : Catalog) (raw : option json) : Response -> Prop :=
  | respond_with_cookie sid :
      cookie = Some sid -> sid <> EmptyString ->
      POST_respond StringToNumber cookie day curYear fetch raw
        {| interpretedAs := ("sig=" ++ sig_json (makeSignature (q (parse_request raw))))%string;
           resp_cards := POST_cards StringToNumber sid day curYear fetch raw;
           resp_set_cookie := None |}
  | respond_fresh_session uuid :
      (cookie = None \/ cookie = Some EmptyString) -> String.length uuid = 36%nat ->
      POST_respond StringToNumber cookie day curYear fetch raw
        {| interpretedAs := ("sig=" ++ sig_json (makeSignature (q (parse_request raw))))%string;
           resp_cards := POST_cards StringToNumber uuid day curYear fetch raw;
           resp_set_cookie := Some uuid |}.

(** ** [src/lib/tmdb.ts] and [src/lib/cache.ts]: [fetchDiscoverCustom] *)

(** The Redis store: each key holds a value and its expiry time (seconds). *)
Definition Store := list (string * (list TmdbMovie * Z)).

Fixpoint store_get (k : string) (st : Store) : option (list TmdbMovie * Z) :=
  match st with
  | [] => None
  | (k', e) :: st' => if String.eqb k k' then Some e else store_get k st'
  end.

Fixpoint store_set (k : string) (e : list TmdbMovie * Z) (st : Store) : Store :=
  match st with
  | [] => [(k, e)]
  | (k', e') :: st' => if String.eqb k k' then (k, e) :: st' else (k', e') :: store_set k e st'
  end.

(** [getJson(key)]: [redis.get(key) ?? null]; an expired key reads as absent. *)
Definition getJson (now : Z) (key : string) (st : Store) : option (list TmdbMovie) :=
  match store_get key st with
  | Some (v, expiry) => if now <? expiry then Some v else None
  | None => None
  end.

(** [setJson(key, value, ttlSeconds)]: [redis.set(key, value, { ex: ttlSeconds })]. *)
Definition setJson (now : Z) (key : string) (value : list TmdbMovie) (ttlSeconds : Z)
    (st : Store) : Store :=
  store_set key (value, now + ttlSeconds) st.

(** [x ?? "na"] in a template literal. *)
Definition or_na (x : option string) : string :=
  match x with Some s => s | None => "na" end.

Definition TMDB_BASE : string := "https://api.themoviedb.org/3".

(** The outcome of [fetch(url)] followed by [res.json()]: a failure (a
    rejected fetch, [!res.ok], or a body that does not parse) or the
    [results] field of the body, if any. *)
Inductive NetResult :=
  | NetFail
  | NetOk (results : option (list TmdbMovie)).

(** The network: the outcome of a request, given its URL and headers. *)
Definition Network := string -> list (string * string) -> NetResult.

Fixpoint join (sep : string) (xs : list string) : string :=
  match xs with
  | [] => EmptyString
  | [x] => x
  | x :: xs' => (x ++ sep ++ join sep xs')%string
  end.

(** A JS string is truthy when it is non-empty. *)
Definition truthy_string (x : option string) : option string :=
  match x with Some s => if String.eqb s EmptyString then None else Some s | None => None end.

Section Tmdb.

(** [encodeURIComponent], the JS formatting of a non-integer number, and
    the two environment variables. *)
Variable encodeURIComponent : string -> string.
Variable NumberToString : Q -> string.
Variable TMDB_READ_TOKEN : option string.
Variable TMDB_API_KEY : option string.

Definition tmdbHeaders : list (string * string) :=
  match truthy_string TMDB_READ_TOKEN with
  | Some token => [("Authorization", "Bearer " ++ token)%string]
  | None => []
  end.

Definition tmdbAuthQuery : string :=
  match truthy_string TMDB_API_KEY with
  | Some apiKey => ("&api_key=" ++ encodeURIComponent apiKey)%string
  | None => EmptyString
  end.

(** The cache key of [fetchDiscoverCustom]. *)
Definition cache_key (p : DiscoverParams) : string :=
  "tmdb:discover:custom:" ++
  ("sort=" ++ sort_by p ++
  (":votesGte=" ++ or_na (option_map String_of_Z (vote_count_gte p)) ++
  (":avgGte=" ++ or_na (option_map NumberToString (vote_average_gte p)) ++
  (":genres=" ++ or_na (with_genres p) ++
  (":prdGte=" ++ or_na (primary_release_date_gte p) ++
  (":prdLte=" ++ or_na (primary_release_date_lte p) ++
  (":p" ++ String_of_Z (page p) ++ ":v1"))))))).

(** The query string [qs.join("&")]. *)
Definition discover_qs (p : DiscoverParams) : list string :=
  ["include_adult=false"; "include_video=false"; "language=en-US";
   "sort_by=" ++ encodeURIComponent (sort_by p); "page=" ++ String_of_Z (page p)]%string
  ++ match vote_count_gte p with Some v => ["vote_count.gte=" ++ String_of_Z v]%string | None => [] end
  ++ match vote_average_gte p with Some v => ["vote_average.gte=" ++ NumberToString v]%string | None => [] end
  ++ match truthy_string (with_genres p) with
     | Some g => ["with_genres=" ++ encodeURIComponent g]%string | None => [] end
  ++ match truthy_string (primary_release_date_gte p) with
     | Some d => ["primary_release_date.gte=" ++ d]%string | None => [] end
  ++ match truthy_string (primary_release_date_lte p) with
     | Some d => ["primary_release_date.lte=" ++ d]%string | None => [] end.

Definition discover_url (p : DiscoverParams) : string :=
  (TMDB_BASE ++ "/discover/movie?" ++ join "&" (discover_qs p) ++ tmdbAuthQuery)%string.

(** [fetchDiscoverCustom(params)] at time [now]: [None] is a thrown error.
    A cached value is an array, hence truthy. *)
Definition fetchDiscoverCustom (now : Z) (net : Network) (p : DiscoverParams) (st : Store)
    : option (list TmdbMovie) * Store :=
  let key := cache_key p in
  match getJson now key st with
  | Some cached => (Some cached, st)
  | None =>
      match net (discover_url p) tmdbHeaders with
      | NetFail => (None, st)
      | NetOk data =>
          let results := match data with Some r => r | None => [] end in
          (Some results, setJson now key results (12 * 60 * 60) st)
      end
  end.

(** The catalog seen by one run of [POST]: the four calls of its
    [Promise.all] all read the store before any of them writes it. *)
Definition run_catalog (now : Z) (net : Network) (st : Store) : Catalog :=
  fun p => match fst (fetchDiscoverCustom now net p st) with Some r => r | None => [] end.

(** [POST] with the cache: the four calls, their writes to the store, and
    the cards; [None] when one of the calls throws ([Promise.all] rejects,
    the writes of the other calls still happen). *)
Definition POST_cached (StringToNumber : string -> JSNumber) (sid day : string) (curYear now : Z)
    (net : Network) (st : Store) (raw : option json) : option (list DeckCard) * Store :=
  let sig := makeSignature (q (parse_request raw)) in
  let ps := slices_params sig curYear in
  let st' := fold_left (fun s p => snd (fetchDiscoverCustom now net p s)) ps st in
  if forallb (fun p => match fst (fetchDiscoverCustom now net p st) with
                       | Some _ => true | None => false end) ps
  then (Some (POST_cards StringToNumber sid day curYear (run_catalog now net st) raw), st')
  else (None, st').

End Tmdb.

(** ** [src/app/page.tsx]: the client *)

Record UiState := mkUi {
  ui_query : string;
  ui_loading : bool;
  ui_error : option string;
  ui_cards : list DeckCard;
  ui_index : nat;
  ui_reroll : Z;
  ui_likes : list string;
  ui_passes : list string
}.

(** [Set.add] on a set kept in insertion order. *)
Definition set_add (s : list string) (x : string) : list string :=
  if set_has s x then s else s ++ [x].

(** [cards[index]] *)
Definition current (st : UiState) : option DeckCard := nth_error (ui_cards st) (ui_index st).

Definition keep (st : UiState) : UiState :=
  match current st with
  | None => st
  | Some c =>
      {| ui_query := ui_query st; ui_loading := ui_loading st; ui_error := ui_error st;
         ui_cards := ui_cards st;
         ui_index := Nat.min (ui_index st + 1) (length (ui_cards st));
         ui_reroll := ui_reroll st;
         ui_likes := set_add (ui_likes st) (card_id c);
         ui_passes := ui_passes st |}
  end.

Definition pass (st : UiState) : UiState :=
  match current st with
  | None => st
  | Some c =>
      {| ui_query := ui_query st; ui_loading := ui_loading st; ui_error := ui_error st;
         ui_cards := ui_cards st;
         ui_index := Nat.min (ui_index st + 1) (length (ui_cards st));
         ui_reroll := ui_reroll st;
         ui_likes := ui_likes st;
         ui_passes := set_add (ui_passes st) (card_id c) |}
  end.

(** [arr.slice(-n)] *)
Definition slice_last {A} (n : nat) (l : list A) : list A := skipn (length l - n) l.

(** The body [JSON.stringify({ q, reroll, likes, passes })], as the JSON
    value that [request.json()] gives back on the server. *)
Definition deck_request_body (query : string) (reroll : Z) (likes passes : list string) : json :=
  JObj [("q", JStr query); ("reroll", JNum reroll);
        ("likes", JArr (map JStr (slice_last 200 likes)));
        ("passes", JArr (map JStr (slice_last 200 passes)))]%string.

(** [getPicks] up to its request: the new state and the body sent. *)
Definition getPicks_start (st : UiState) : UiState * json :=
  ({| ui_query := ui_query st; ui_loading := true; ui_error := None; ui_cards := [];
      ui_index := 0; ui_reroll := 0; ui_likes := ui_likes st; ui_passes := ui_passes st |},
   deck_request_body (ui_query st) 0 (ui_likes st) (ui_passes st)).

(** [rerollPicks] up to its request. *)
Definition rerollPicks_start (st : UiState) : UiState * json :=
  let next := ui_reroll st + 1 in
  ({| ui_query := ui_query st; ui_loading := true; ui_error := None; ui_cards := ui_cards st;
      ui_index := 0; ui_reroll := next; ui_likes := ui_likes st; ui_passes := ui_passes st |},
   deck_request_body (ui_query st) next (ui_likes st) (ui_passes st)).

(** The outcome of the request: [data.cards] (possibly absent), or an error. *)
Inductive ApiResult :=
  | ApiOk (cards : option (list DeckCard))
  | ApiFailed (message : string).

(** The end of [getPicks] and [rerollPicks]: [setCards(data.cards ?? [])]
    or [setError(...)], then [setLoading(false)]. *)
Definition finish (st : UiState) (r : ApiResult) : UiState :=
  match r with
  | ApiOk cs =>
      {| ui_query := ui_query st; ui_loading := false; ui_error := ui_error st;
         ui_cards := match cs with Some l => l | None => [] end;
         ui_index := ui_index st; ui_reroll := ui_reroll st;
         ui_likes := ui_likes st; ui_passes := ui_passes st |}
  | ApiFailed msg =>
      {| ui_query := ui_query st; ui_loading := false; ui_error := Some msg;
         ui_cards := ui_cards st; ui_index := ui_index st; ui_reroll := ui_reroll st;
         ui_likes := ui_likes st; ui_passes := ui_passes st |}
  end.

(** The user's actions and the arrival of a response. *)
Inductive UiAction :=
  | AKeep
  | APass
  | AGetPicks
  | AReroll
  | AFinish (r : ApiResult).

Definition ui_step (st : UiState) (a : UiAction) : UiState * option json :=
  match a with
  | AKeep => (keep st, None)
  | APass => (pass st, None)
  | AGetPicks => let '(st', b) := getPicks_start st in (st', Some b)
  | AReroll => let '(st', b) := rerollPicks_start st in (st', Some b)
  | AFinish r => (finish st r, None)
  end.

(** A run of actions: the final state and the bodies sent, in order. *)
Fixpoint ui_run (st : UiState) (acts : list UiAction) : UiState * list json :=
  match acts with
  | [] => (st, [])
  | a :: acts' =>
      let '(st1, sent) := ui_step st a in
      let '(st2, rest) := ui_run st1 acts' in
      (st2, match sent with Some b => b :: rest | None => rest end)
  end.

(** ** Auxiliary notions used in the proofs *)

(** [w] occurs in [t] as a substring. *)
Definition occurs (w t : string) : Prop := ∃ pre post, t = (pre ++ w ++ post)%string.

(** The value of field [key] of the request body, when the body is an
    object that has it. *)
Definition body_field (raw : option json) (key : string) : option json :=
  match parse_body raw with JObj fs => lookup_field key fs | _ => None end.

(** Number of occurrences of genre [g] in a genre list. *)
Definition occ (g : Z) (gs : list Z) : Z := Z.of_nat (length (List.filter (Z.eqb g) gs)).

(** Sum, over the entries of [merged] (repeats included) whose id is in
    [ids], of the occurrences of [g] in their genre lists. *)
Definition kept_occurrences (merged : list TmdbMovie) (ids : list string) (g : Z) : Z :=
  fold_right Z.add 0
    (map (fun m => if set_has ids (String_of_Z (id m)) then occ g (genres_of m) else 0) merged).

(** The number of distinct pool candidates tagged [g] whose id is in [ids]
    (the claim's reading of the counts). *)
Definition distinct_kept_count (merged : list TmdbMovie) (ids : list string) (g : Z) : Z :=
  Z.of_nat (length (List.filter (fun m => genre_has m g && set_has ids (String_of_Z (id m)))
                      (JSMap.values (dedupe_by_id merged)))).

(** A weight map without any history for genre [g]. *)
Definition forget (g : Z) (counts : JSMap.t Z) : JSMap.t Z :=
  List.filter (fun kv => negb (Z.eqb (fst kv) g)) counts.

(** A horror comedy with 300 votes. *)
Definition sample_movie : TmdbMovie :=
  mkMovie 7 "B" None None (Some [27; 35]) (Some 7%Q) (Some 300%Q) (Some 10%Q) None.

(** Every entry of [byId] is stored under its own id. *)
Definition keyed_by_id (byId : JSMap.t TmdbMovie) : Prop :=
  Forall (fun kv => kv.1 = id kv.2) byId.

Definition unseen (s : list Z) (m : TmdbMovie) : bool := negb (existsb (Z.eqb (id m)) s).

(** The ids of a list in the order of their first occurrence. *)
Definition first_occ (l : list Z) : list Z :=
  fold_left (fun acc z => if existsb (Z.eqb z) acc then acc else acc ++ [z]) l [].

(** The last entry of [merged] with id [k]. *)
Definition last_with_id (merged : list TmdbMovie) (k : Z) : option TmdbMovie :=
  fold_left (fun acc m => if Z.eqb (id m) k then Some m else acc) merged None.

(** A movie with one field replaced. *)
Definition with_vote_average (m : TmdbMovie) (v : option Q) : TmdbMovie :=
  mkMovie (id m) (title m) (overview m) (release_date m) (genre_ids m)
    v (vote_count m) (popularity m) (poster_path m).

Definition with_vote_count (m : TmdbMovie) (v : option Q) : TmdbMovie :=
  mkMovie (id m) (title m) (overview m) (release_date m) (genre_ids m)
    (vote_average m) v (popularity m) (poster_path m).

Definition with_popularity (m : TmdbMovie) (v : option Q) : TmdbMovie :=
  mkMovie (id m) (title m) (overview m) (release_date m) (genre_ids m)
    (vote_average m) (vote_count m) v (poster_path m).

(** Discover parameters with another [with_genres]. *)
Definition with_genres_as (p : DiscoverParams) (g : option string) : DiscoverParams :=
  mkParams (page p) (sort_by p) (vote_count_gte p) (vote_average_gte p) g
    (primary_release_date_gte p) (primary_release_date_lte p).

(** A decimal digit. *)
Definition is_digit (c : ascii) : bool :=
  (48 <=? nat_of_ascii c)%nat && (nat_of_ascii c <=? 57)%nat.

Fixpoint all_digits (s : string) : bool :=
  match s with
  | EmptyString => true
  | String c s' => is_digit c && all_digits s'
  end.

(** The reroll index a request body carries, as the server reads it. *)
Definition sent_reroll (b : json) : Z := reroll (parse_request (Some b)).

Definition count_rerolls (acts : list UiAction) : nat :=
  length (List.filter (fun a => match a with AReroll => true | _ => false end) acts).

(** ** General lemmas *)

Section Lists.
Context {A : Type}.

Lemma swap_perm (i j : nat) (l : list A) : swap i j l ≡ₚ l.
Proof.
  unfold swap. destruct (l !! i) eqn:Hi, (l !! j) eqn:Hj; try done.
  by apply Permutation_insert_swap.
Qed.

Lemma shuffle_loop_perm (i : nat) (l : list A) (g : Z) : (shuffle_loop i l g).1 ≡ₚ l.
Proof.
  revert l g. induction i as [|i IH]; intros l g; simpl; [done|].
  destruct (mulberry32_step g) as [u g'] eqn:E.
  rewrite IH. apply swap_perm.
Qed.

Lemma shuffleInPlace_perm (l : list A) (g : Z) : (shuffleInPlace l g).1 ≡ₚ l.
Proof. apply shuffle_loop_perm. Qed.

(** Each call of the generator advances its state by one increment. *)
Lemma shuffle_loop_state (i : nat) (l : list A) (g : Z) :
  (shuffle_loop i l g).2 = g + Z.of_nat i * 1831565813.
Proof.
  revert l g. induction i as [|i IH]; intros l g; simpl; [lia|].
  rewrite IH. lia.
Qed.

Lemma insert_desc_perm (x : A * R) (l : list (A * R)) : insert_desc x l ≡ₚ x :: l.
Proof.
  induction l as [|y l IH]; simpl; [done|].
  destruct (Rlt_dec (snd y) (snd x)); [done|].
  rewrite IH. apply Permutation_swap.
Qed.

Lemma sort_desc_perm (l : list (A * R)) : sort_desc l ≡ₚ l.
Proof.
  unfold sort_desc.
  assert (H : ∀ acc, fold_left (fun acc x => insert_desc x acc) l acc ≡ₚ l ++ acc).
  { induction l as [|x l IH]; intros acc; simpl; [done|].
    rewrite IH, insert_desc_perm. symmetry. apply Permutation_middle. }
  rewrite H. by rewrite app_nil_r.
Qed.

End Lists.

Lemma rank_perm sig lc pc filtered : rank sig lc pc filtered ≡ₚ filtered.
Proof.
  unfold rank. rewrite sort_desc_perm, map_map. simpl. by rewrite map_id.
Qed.

(** The taste-shaping loop adds the sum of the per-genre terms. *)
Lemma taste_loop_sum lc pc gs s :
  taste_loop lc pc gs s =
  (s + fold_right Rplus 0
         (map (fun g => 2 * IZR (count_get lc g) - 1 * IZR (count_get pc g)) gs))%R.
Proof.
  unfold taste_loop. revert s.
  induction gs as [|g gs IH]; intros s; simpl; [ring|].
  rewrite IH, !mult_IZR. ring.
Qed.

Lemma scoreMovie_as_formula m sig lc pc :
  scoreMovie m sig lc pc = score_formula m sig lc pc.
Proof.
  unfold scoreMovie, score_formula, bonus, GENRE_comedy, GENRE_horror,
    GENRE_mystery, GENRE_animation.
  cbv zeta. rewrite taste_loop_sum.
  replace (30 - 10 * log10 (num_or_0 (popularity m) + 1))%R
    with (30 - log10 (num_or_0 (popularity m) + 1) * 10)%R by ring.
  repeat match goal with |- context [if ?b then _ else _] => destruct b end; ring.
Qed.

(** ** C2: the scorer *)

(** C2: [scoreMovie] is the additive formula of the spec: the quality
    baseline, the genre intent bonuses, the underrated, bad-movie and trippy
    terms, and the sum over the candidate's genre tags of
    [2 * likeCount - 1 * passCount], with no normalisation. *)
Theorem scoreMovie_additive (m : TmdbMovie) (sig : Signature) (likeCounts passCounts : JSMap.t Z) :
  scoreMovie m sig likeCounts passCounts = score_formula m sig likeCounts passCounts.
Proof. apply scoreMovie_as_formula. Qed.

(** ** C4: the single-genre restriction *)

(** C4: when exactly one of the four genre flags is set and neither
    [underrated] nor [badMovie], the pool is restricted to the candidates
    tagged with the matching genre, unless fewer than 25 remain, in which
    case the unrestricted pool is kept; otherwise the pool is unchanged. *)
Theorem genre_restrict_spec (sig : Signature) (candidates : list TmdbMovie) :
  genre_restrict sig candidates =
  if exactly_one_genre_flag sig && negb (underrated sig) && negb (badMovie sig) then
    let r := List.filter (fun m => existsb (Z.eqb (matching_genre sig)) (genres_of m)) candidates in
    if (length r <? 25)%nat then candidates else r
  else candidates.
Proof.
  destruct sig as [[] [] [] [] tr [] []]; reflexivity.
Qed.

(** ** Substring search *)

Lemma prefix_app (w post : string) : String.prefix w (w ++ post) = true.
Proof.
  induction w as [|c w IH]; simpl; [by destruct post|].
  destruct (ascii_dec c c); [exact IH|congruence].
Qed.

Lemma prefix_true (w t : string) : String.prefix w t = true → ∃ post, t = (w ++ post)%string.
Proof.
  revert t. induction w as [|c w IH]; intros t H; simpl.
  - by exists t.
  - destruct t as [|c' t]; simpl in H; [discriminate|].
    destruct (ascii_dec c c') as [->|]; [|discriminate].
    destruct (IH t H) as [post ->]. by exists post.
Qed.

Lemma includes_spec (t w : string) : includes t w = true ↔ occurs w t.
Proof.
  split.
  - induction t as [|c t IH]; intros H; cbn [includes] in H.
    + apply orb_true_iff in H as [H|H]; [|discriminate].
      destruct (prefix_true _ _ H) as [post Hp]. by exists EmptyString, post.
    + apply orb_true_iff in H as [H|H].
      * destruct (prefix_true _ _ H) as [post Hp]. by exists EmptyString, post.
      * destruct (IH H) as (pre & post & ->). by exists (String c pre), post.
  - intros (pre & post & ->). revert post.
    induction pre as [|c pre IH]; intros post; simpl.
    + destruct w as [|c w]; [by destruct post|].
      apply orb_true_iff. left. apply (prefix_app (String c w)).
    + apply orb_true_iff. right. apply IH.
Qed.

Lemma hasAny_spec (t : string) (ws : list string) :
  hasAny t ws = true ↔ ∃ w, In w ws ∧ occurs w t.
Proof.
  unfold hasAny. rewrite existsb_exists.
  split; intros (w & Hin & H); exists w; split; try done; by apply includes_spec.
Qed.

Lemma toLowerCase_app (a b : string) :
  toLowerCase (a ++ b) = (toLowerCase a ++ toLowerCase b)%string.
Proof. induction a as [|c a IH]; simpl; [done|]. by rewrite IH. Qed.

(** ** C8: the intent extractor *)

(** C8: [makeSignature] sets each flag iff some phrase of that flag's
    lexicon occurs in the lower-cased text; the empty text gives the
    all-false signature; a text containing "horror" in any case has the
    horror flag; and several flags (here all seven) can be set at once. *)
Theorem makeSignature_lexicon :
  (∀ text : string,
    let t := toLowerCase text in
    let sig := makeSignature text in
    (anime sig = true ↔ ∃ w, In w ["anime"; "shonen"; "isekai"; "slice of life"] ∧ occurs w t) ∧
    (comedy sig = true ↔
       ∃ w, In w ["comedy"; "funny"; "humour"; "humor"; "laugh"; "satire"] ∧ occurs w t) ∧
    (horror sig = true ↔
       ∃ w, In w ["horror"; "scary"; "slasher"; "haunting"; "ghost"; "demon"] ∧ occurs w t) ∧
    (mystery sig = true ↔
       ∃ w, In w ["mystery"; "detective"; "whodunit"; "investigation"; "case"] ∧ occurs w t) ∧
    (trippy sig = true ↔
       ∃ w, In w ["trippy"; "psychedelic"; "surreal"; "mind-bending"; "mind bending";
                  "weird"; "acid"] ∧ occurs w t) ∧
    (underrated sig = true ↔
       ∃ w, In w ["underrated"; "hidden gem"; "hidden gems"; "gem"; "gems";
                  "under the radar"] ∧ occurs w t) ∧
    (badMovie sig = true ↔
       ∃ w, In w ["bad movie"; "so bad"; "trash"; "terrible"; "awful";
                  "guilty pleasure"] ∧ occurs w t)) ∧
  makeSignature EmptyString = mkSignature false false false false false false false ∧
  (∀ pre h post : string, toLowerCase h = "horror"%string →
     horror (makeSignature (pre ++ h ++ post)) = true) ∧
  (∃ text, makeSignature text = mkSignature true true true true true true true).
Proof.
  split; [|split; [|split]].
  - intros text. cbv zeta. unfold makeSignature. cbn [anime comedy horror mystery trippy underrated badMovie].
    do 6 (split; [apply hasAny_spec|]). apply hasAny_spec.
  - reflexivity.
  - intros pre h post Hh. unfold makeSignature. cbn [horror].
    apply hasAny_spec. exists "horror"%string. split; [by left|].
    rewrite !toLowerCase_app, Hh.
    by exists (toLowerCase pre), (toLowerCase post).
  - exists "anime comedy horror mystery trippy gem trash"%string. vm_compute. reflexivity.
Qed.

Lemma makeSignature_lexicon_witness :
  toLowerCase "HoRRoR" = "horror"%string ∧
  horror (makeSignature ("a " ++ "HoRRoR" ++ " night")) = true.
Proof.
  split; [reflexivity|].
  apply (proj1 (proj2 (proj2 makeSignature_lexicon)) "a " "HoRRoR" " night").
  vm_compute. reflexivity.
Defined.

(** ** C9: request body defaults *)

Lemma getStringField_body raw key :
  getStringField (parse_body raw) key =
  match body_field raw key with Some (JStr s) => Some s | _ => None end.
Proof. unfold body_field. by destruct (parse_body raw). Qed.

Lemma getNumberField_body raw key :
  getNumberField (parse_body raw) key =
  match body_field raw key with Some (JNum n) => Some n | _ => None end.
Proof. unfold body_field. by destruct (parse_body raw). Qed.

Lemma getStringArray_body raw key :
  getStringArray (parse_body raw) key =
  match body_field raw key with Some (JArr xs) => only_strings xs | _ => [] end.
Proof. unfold body_field. by destruct (parse_body raw). Qed.

Lemma only_strings_spec (xs : list json) (s : string) : In s (only_strings xs) ↔ In (JStr s) xs.
Proof.
  unfold only_strings. rewrite in_flat_map. split.
  - intros (x & Hx & Hs). destruct x; simpl in Hs; try done.
    destruct Hs as [->|[]]. done.
  - intros H. exists (JStr s). simpl. auto.
Qed.

Lemma field_array_cases raw key :
  (∀ xs, body_field raw key = Some (JArr xs) →
     ∀ s, In s (getStringArray (parse_body raw) key) ↔ In (JStr s) xs) ∧
  ((∀ xs, body_field raw key ≠ Some (JArr xs)) → getStringArray (parse_body raw) key = []).
Proof.
  rewrite getStringArray_body. split.
  - intros xs ->. apply only_strings_spec.
  - intros H. destruct (body_field raw key) as [[]|]; try done. by destruct (H xs).
Qed.

(** C9: parsing the body never fails and degrades to defaults: the query
    is the trimmed [q] string or empty, the reroll index is the [reroll]
    number or 0, the kept and passed lists are the string elements of the
    [likes] and [passes] arrays (other elements dropped) or empty; an
    absent or unparseable body gives all the defaults. *)
Theorem parse_request_defaults :
  ∀ raw : option json,
    let req := parse_request raw in
    (∀ s, body_field raw "q" = Some (JStr s) → q req = trim s) ∧
    ((∀ s, body_field raw "q" ≠ Some (JStr s)) → q req = EmptyString) ∧
    (∀ n, body_field raw "reroll" = Some (JNum n) → reroll req = n) ∧
    ((∀ n, body_field raw "reroll" ≠ Some (JNum n)) → reroll req = 0) ∧
    (∀ xs, body_field raw "likes" = Some (JArr xs) → ∀ s, In s (likes req) ↔ In (JStr s) xs) ∧
    ((∀ xs, body_field raw "likes" ≠ Some (JArr xs)) → likes req = []) ∧
    (∀ xs, body_field raw "passes" = Some (JArr xs) → ∀ s, In s (passes req) ↔ In (JStr s) xs) ∧
    ((∀ xs, body_field raw "passes" ≠ Some (JArr xs)) → passes req = []) ∧
    (raw = None → req = mkRequest EmptyString 0 [] []).
Proof.
  intros raw. cbv zeta. unfold parse_request. cbn [q reroll likes passes].
  rewrite getStringField_body, getNumberField_body.
  destruct (field_array_cases raw "likes") as [L1 L2].
  destruct (field_array_cases raw "passes") as [P1 P2].
  split; [intros s ->; done|].
  split; [intros H; destruct (body_field raw "q") as [[]|]; try done; by destruct (H s)|].
  split; [intros n ->; done|].
  split; [intros H; destruct (body_field raw "reroll") as [[]|]; try done; by destruct (H n)|].
  do 4 (split; [done|]).
  intros ->. reflexivity.
Qed.

Lemma parse_request_defaults_witness :
  q (parse_request (Some (JObj [("q", JNum 3)]))) = EmptyString ∧
  reroll (parse_request (Some (JObj [("reroll", JNum 2)]))) = 2.
Proof.
  split.
  - apply (proj1 (proj2 (parse_request_defaults (Some (JObj [("q", JNum 3)]))))).
    intros s. vm_compute. discriminate.
  - apply (proj1 (proj2 (proj2 (parse_request_defaults (Some (JObj [("reroll", JNum 2)])))))).
    vm_compute. reflexivity.
Defined.

(** ** C10: card year and kind *)

(** C10: the card year is 0 when the release date is absent, empty or its
    first four characters are not a finite number, and that number
    otherwise; every card of the deck has kind [movie]. *)
Theorem card_year_and_kind :
  (∀ (StringToNumber : string -> JSNumber) (sig : Signature) (m : TmdbMovie),
     let c := to_card StringToNumber sig m in
     (release_date m = None → year c = 0%Q) ∧
     (release_date m = Some EmptyString → year c = 0%Q) ∧
     (∀ s, release_date m = Some s → (∀ y, StringToNumber (substring 0 4 s) ≠ NFinite y) →
        year c = 0%Q) ∧
     (∀ s y, release_date m = Some s → s ≠ EmptyString →
        StringToNumber (substring 0 4 s) = NFinite y → year c = y)) ∧
  (∀ (StringToNumber : string -> JSNumber) (sessionId day : string) (curYear : Z)
     (fetch : Catalog) (raw : option json),
     Forall (fun c => kind c = KMovie) (POST_cards StringToNumber sessionId day curYear fetch raw)).
Proof.
  split.
  - intros S sig m. cbv zeta. unfold to_card, yearFromDate. cbn [year].
    split; [intros ->; done|].
    split; [intros ->; done|].
    split.
    + intros s -> H. destruct (String.eqb s EmptyString); [done|].
      destruct (S (substring 0 4 s)) eqn:E; try done. by destruct (H v).
    + intros s y -> Hs Hy. rewrite Hy.
      destruct (String.eqb_spec s EmptyString); [done|]. done.
  - intros S sid day curYear fetch raw. unfold POST_cards.
    apply List.Forall_forall. intros c Hc. apply in_map_iff in Hc as (m & <- & _). done.
Qed.

Lemma card_year_and_kind_witness :
  year (to_card (fun _ => NNaN) (makeSignature EmptyString)
          (mkMovie 1 "x" None None None None None None None)) = 0%Q.
Proof.
  apply (proj1 (proj1 card_year_and_kind (fun _ => NNaN) (makeSignature EmptyString)
                  (mkMovie 1 "x" None None None None None None None))).
  reflexivity.
Defined.

(** ** Genre weights *)

Lemma occ_cons g x gs : occ g (x :: gs) = (if Z.eqb g x then 1 else 0) + occ g gs.
Proof. unfold occ. simpl. destruct (Z.eqb g x); simpl; lia. Qed.

Lemma JSMap_get_set {V} (k k' : Z) (v : V) (m : JSMap.t V) :
  JSMap.get k' (JSMap.set k v m) = if Z.eqb k' k then Some v else JSMap.get k' m.
Proof.
  induction m as [|[k1 v1] m IH]; simpl.
  - done.
  - destruct (Z.eqb_spec k k1) as [->|Hne]; simpl.
    + destruct (Z.eqb k' k1); done.
    + rewrite IH. destruct (Z.eqb_spec k' k1) as [->|]; [|done].
      destruct (Z.eqb_spec k1 k); [congruence|done].
Qed.

Lemma count_get_set k v m g :
  count_get (JSMap.set k v m) g = if Z.eqb g k then v else count_get m g.
Proof. unfold count_get. rewrite JSMap_get_set. by destruct (Z.eqb g k). Qed.

Lemma bump_all_count gs c g : count_get (bump_all gs c) g = count_get c g + occ g gs.
Proof.
  unfold bump_all. revert c.
  induction gs as [|x gs IH]; intros c; simpl; [unfold occ; simpl; lia|].
  rewrite IH, count_get_set, occ_cons.
  destruct (Z.eqb_spec g x) as [->|]; lia.
Qed.

Lemma kept_occurrences_cons m merged ids g :
  kept_occurrences (m :: merged) ids g =
  (if set_has ids (String_of_Z (id m)) then occ g (genres_of m) else 0)
  + kept_occurrences merged ids g.
Proof. reflexivity. Qed.

Lemma weights_fold_counts merged likes passes acc g :
  count_get (fold_left (weights_step likes passes) merged acc).1 g
    = count_get acc.1 g + kept_occurrences merged likes g ∧
  count_get (fold_left (weights_step likes passes) merged acc).2 g
    = count_get acc.2 g + kept_occurrences merged passes g.
Proof.
  revert acc. induction merged as [|m merged IH]; intros [lc pc]; cbn [fold_left].
  - unfold kept_occurrences; simpl. lia.
  - destruct (IH (weights_step likes passes (lc, pc) m)) as [H1 H2].
    rewrite H1, H2, !kept_occurrences_cons. unfold weights_step. cbn [fst snd].
    destruct (set_has likes _), (set_has passes _); rewrite ?bump_all_count; simpl; lia.
Qed.

Lemma count_get_forget_eq g counts : count_get (forget g counts) g = 0.
Proof.
  unfold count_get, forget. induction counts as [|[k v] counts IH]; simpl; [done|].
  destruct (Z.eqb_spec k g) as [->|Hne]; simpl; [done|].
  destruct (Z.eqb_spec g k); [congruence|done].
Qed.

Lemma count_get_forget_ne g g' counts : g' ≠ g → count_get (forget g counts) g' = count_get counts g'.
Proof.
  intros Hne. unfold count_get, forget. induction counts as [|[k v] counts IH]; simpl; [done|].
  destruct (Z.eqb_spec k g) as [->|]; simpl.
  - destruct (Z.eqb_spec g' g); [congruence|done].
  - destruct (Z.eqb g' k); done.
Qed.

Lemma taste_sum_forget lc pc g gs :
  count_get lc g = 3 → count_get pc g = 0 →
  (fold_right Rplus 0
    (map (fun g' => 2 * IZR (count_get lc g') - 1 * IZR (count_get pc g')) gs))%R =
  (fold_right Rplus 0
    (map (fun g' => 2 * IZR (count_get (forget g lc) g') - 1 * IZR (count_get (forget g pc) g')) gs)
   + 6 * IZR (occ g gs))%R.
Proof.
  intros Hl Hp. induction gs as [|x gs IH]; simpl.
  - unfold occ; simpl. ring.
  - rewrite IH, occ_cons, plus_IZR.
    destruct (Z.eqb_spec g x) as [<-|Hne].
    + rewrite Hl, Hp, !count_get_forget_eq. simpl. ring.
    + rewrite !count_get_forget_ne by congruence. simpl. ring.
Qed.

(** ** C3: genre weights *)

(** C3 (as claimed, refuted): the like count of a genre is not the number of
    distinct pool candidates with that genre that were kept: a kept movie
    returned by two slices (the era windows share one year) counts twice. *)
Lemma genre_weights_not_distinct :
  ¬ (∀ (merged : list TmdbMovie) (likes passes : list string) (g : Z),
       count_get (buildGenreWeights merged likes passes).1 g = distinct_kept_count merged likes g).
Proof.
  intros H.
  pose (m1 := mkMovie 1 "A" None None (Some [27]) None None None (Some "/a.jpg"%string)).
  specialize (H (merge_slices [[m1]; []; [m1]; []]) ["1"%string] [] 27).
  vm_compute in H. discriminate.
Qed.

(** C3 (amended): the like count of [g] is, over the concatenated slices
    with their repeats, the number of occurrences of [g] in the genre lists
    of the entries whose id is kept (the pass count likewise over the
    passed ids); and a genre with like count 3 and pass count 0 adds
    exactly 6 per occurrence of that genre in a candidate's genre list,
    compared with the same weights without that genre's history. *)
Theorem genre_weights_occurrences :
  (∀ (merged : list TmdbMovie) (likes passes : list string) (g : Z),
     count_get (buildGenreWeights merged likes passes).1 g = kept_occurrences merged likes g ∧
     count_get (buildGenreWeights merged likes passes).2 g = kept_occurrences merged passes g) ∧
  (∀ (m : TmdbMovie) (sig : Signature) (likeCounts passCounts : JSMap.t Z) (g : Z),
     count_get likeCounts g = 3 → count_get passCounts g = 0 →
     scoreMovie m sig likeCounts passCounts =
     (scoreMovie m sig (forget g likeCounts) (forget g passCounts) + 6 * IZR (occ g (genres_of m)))%R).
Proof.
  split.
  - intros merged likes passes g. unfold buildGenreWeights.
    destruct (weights_fold_counts merged likes passes (JSMap.empty, JSMap.empty) g) as [H1 H2].
    rewrite H1, H2. simpl. unfold count_get. simpl. lia.
  - intros m sig lc pc g Hl Hp. rewrite !scoreMovie_as_formula. unfold score_formula.
    rewrite (taste_sum_forget lc pc g (genres_of m) Hl Hp). ring.
Qed.

Lemma genre_weights_occurrences_witness :
  scoreMovie sample_movie (makeSignature EmptyString) [(27%Z, 3%Z)] [] =
  (scoreMovie sample_movie (makeSignature EmptyString) (forget 27 [(27%Z, 3%Z)]) (forget 27 [])
   + 6 * IZR (occ 27 (genres_of sample_movie)))%R.
Proof.
  apply (proj2 genre_weights_occurrences); reflexivity.
Defined.

(** ** Aggregation lemmas *)

Lemma JSMap_set_values_in {V} (k : Z) (v x : V) (m : JSMap.t V) :
  In x (JSMap.values (JSMap.set k v m)) → x = v ∨ In x (JSMap.values m).
Proof.
  unfold JSMap.values. induction m as [|[k1 v1] m IH]; simpl; [intuition|].
  destruct (Z.eqb k k1); simpl; intuition.
Qed.

Lemma JSMap_set_keys_in {V} (k k' : Z) (v : V) (m : JSMap.t V) :
  In k' (JSMap.keys (JSMap.set k v m)) ↔ k' = k ∨ In k' (JSMap.keys m).
Proof.
  unfold JSMap.keys. induction m as [|[k1 v1] m IH]; simpl; [intuition|].
  destruct (Z.eqb_spec k k1) as [->|]; simpl; [intuition|].
  rewrite IH. intuition.
Qed.

Lemma JSMap_set_keys_NoDup {V} (k : Z) (v : V) (m : JSMap.t V) :
  List.NoDup (JSMap.keys m) → List.NoDup (JSMap.keys (JSMap.set k v m)).
Proof.
  induction m as [|[k1 v1] m IH]; intros Hnd.
  - unfold JSMap.keys; simpl. constructor; [intro Hin; inversion Hin|constructor].
  - inversion Hnd as [|? ? Hni Hnd']; subst. cbn [JSMap.set].
    destruct (Z.eqb_spec k k1) as [->|Hne].
    + unfold JSMap.keys in *; simpl in *. by constructor.
    + unfold JSMap.keys at 1; simpl. fold (JSMap.keys (JSMap.set k v m)).
      constructor; [|by apply IH].
      rewrite JSMap_set_keys_in. intuition.
Qed.

Lemma JSMap_set_keyed (m : TmdbMovie) (byId : JSMap.t TmdbMovie) :
  keyed_by_id byId → keyed_by_id (JSMap.set (id m) m byId).
Proof.
  unfold keyed_by_id. induction byId as [|[k1 v1] byId IH]; simpl; intros H.
  - by repeat constructor.
  - inversion H; subst. destruct (Z.eqb (id m) k1); constructor; auto.
Qed.

Lemma keyed_ids (byId : JSMap.t TmdbMovie) :
  keyed_by_id byId → map id (JSMap.values byId) = JSMap.keys byId.
Proof.
  unfold keyed_by_id, JSMap.values, JSMap.keys.
  induction byId as [|[k v] byId IH]; simpl; intros H; [done|].
  inversion H; subst. simpl in *. f_equal; auto.
Qed.

Lemma dedupe_invariant (merged : list TmdbMovie) :
  keyed_by_id (dedupe_by_id merged) ∧ List.NoDup (JSMap.keys (dedupe_by_id merged)) ∧
  (∀ x, In x (JSMap.values (dedupe_by_id merged)) → In x merged).
Proof.
  unfold dedupe_by_id.
  cut (∀ acc, keyed_by_id acc → List.NoDup (JSMap.keys acc) →
        keyed_by_id (fold_left (fun byId m => JSMap.set (id m) m byId) merged acc) ∧
        List.NoDup (JSMap.keys (fold_left (fun byId m => JSMap.set (id m) m byId) merged acc)) ∧
        (∀ x, In x (JSMap.values (fold_left (fun byId m => JSMap.set (id m) m byId) merged acc))
              → In x (JSMap.values acc) ∨ In x merged)).
  { intros H. destruct (H JSMap.empty) as (H1 & H2 & H3).
    - constructor.
    - constructor.
    - split; [done|split; [done|]]. intros x Hx. destruct (H3 x Hx) as [[]|]; done. }
  induction merged as [|m merged IH]; intros acc Hk Hn; simpl.
  - split; [done|split; [done|]]. intros x Hx. by left.
  - destruct (IH (JSMap.set (id m) m acc)) as (H1 & H2 & H3).
    + by apply JSMap_set_keyed.
    + by apply JSMap_set_keys_NoDup.
    + split; [done|split; [done|]]. intros x Hx.
      destruct (H3 x Hx) as [Hin|Hin]; [|by right; right].
      destruct (JSMap_set_values_in _ _ _ _ Hin) as [->|]; [by right; left|by left].
Qed.

Lemma NoDup_map_filter {A B} (f : A → B) (p : A → bool) (l : list A) :
  List.NoDup (map f l) → List.NoDup (map f (List.filter p l)).
Proof.
  induction l as [|x l IH]; simpl; intros H; [constructor|].
  inversion H as [|? ? Hni Hnd]; subst.
  destruct (p x); simpl; [|by apply IH].
  constructor; [|by apply IH].
  intros Hin. apply Hni. apply in_map_iff in Hin as (y & <- & Hy).
  apply List.filter_In in Hy as [Hy _]. by apply in_map.
Qed.

Lemma hygiene_candidates_ids sig merged likes passes :
  List.NoDup (map id (hygiene_candidates sig merged likes passes)).
Proof.
  destruct (dedupe_invariant merged) as (Hk & Hn & _).
  unfold hygiene_candidates. repeat apply NoDup_map_filter.
  by rewrite keyed_ids.
Qed.

Lemma hygiene_candidates_in sig merged likes passes m :
  In m (hygiene_candidates sig merged likes passes) →
  In m merged ∧ has_poster m = true ∧ votes_ok sig m = true ∧
  popularity_ok sig m = true ∧ not_seen (likes ++ passes) m = true.
Proof.
  destruct (dedupe_invariant merged) as (_ & _ & Hin).
  unfold hygiene_candidates. rewrite !List.filter_In. intuition.
Qed.

(** The single-genre restriction keeps the pool or filters it down to at
    least 25 candidates. *)
Lemma genre_restrict_cases sig candidates :
  genre_restrict sig candidates = candidates ∨
  (genre_restrict sig candidates =
     List.filter (fun m => existsb (Z.eqb (matching_genre sig)) (genres_of m)) candidates ∧
   (25 <= length (genre_restrict sig candidates))%nat).
Proof.
  unfold genre_restrict, matching_genre.
  destruct sig as [[] [] [] [] tr [] []];
    cbn [isSingleGenreIntent intentCount anime comedy horror mystery underrated badMovie
         andb negb Nat.eqb length List.filter];
    try (left; reflexivity);
    match goal with |- context [(length ?f <? 25)%nat] =>
      destruct (Nat.ltb_spec (length f) 25) end;
    first [left; reflexivity | right; split; [reflexivity | lia]].
Qed.

(** ** Assembly lemmas *)

Lemma existsb_id_In (s : list Z) (z : Z) : existsb (Z.eqb z) s = true ↔ In z s.
Proof.
  rewrite existsb_exists. split.
  - intros (x & Hx & E). apply Z.eqb_eq in E. by subst.
  - intros H. exists z. split; [done|]. apply Z.eqb_refl.
Qed.

Lemma filter_split_length {A} (f : A → bool) (l : list A) :
  (length (List.filter f l) + length (List.filter (fun x => negb (f x)) l))%nat = length l.
Proof. induction l as [|x l IH]; simpl; [done|]. destruct (f x); simpl; lia. Qed.

Lemma filter_length_le {A} (f : A → bool) (l : list A) :
  (length (List.filter f l) <= length l)%nat.
Proof. pose proof (filter_split_length f l). lia. Qed.

Lemma NoDup_map_app_one (p : list TmdbMovie) (m : TmdbMovie) :
  List.NoDup (map id p) → ¬ In (id m) (map id p) → List.NoDup (map id (p ++ [m])).
Proof.
  intros Hp Hm. rewrite map_app. simpl.
  apply (Permutation_NoDup (l := id m :: map id p)).
  - apply Permutation_cons_append.
  - by constructor.
Qed.

Lemma topup_extends (r p : list TmdbMovie) (s : list Z) :
  ∃ e, topup r p s = p ++ e ∧ incl e r.
Proof.
  revert p s. induction r as [|m r IH]; intros p s; cbn [topup].
  - exists []. rewrite app_nil_r. split; [done|]. intros x [].
  - destruct (10 <=? length p)%nat.
    { exists []. rewrite app_nil_r. split; [done|]. intros x []. }
    destruct (existsb (Z.eqb (id m)) s).
    + destruct (IH p s) as (e & -> & He). exists e. split; [done|].
      intros x Hx. right. by apply He.
    + destruct (IH (p ++ [m]) (id m :: s)) as (e & -> & He). exists (m :: e).
      rewrite <- app_assoc. split; [done|]. intros x [<-|Hx]; [by left|right; by apply He].
Qed.

Lemma topup_NoDup (r p : list TmdbMovie) (s : list Z) :
  List.NoDup (map id p) → (∀ z, In z s ↔ In z (map id p)) →
  List.NoDup (map id (topup r p s)).
Proof.
  revert p s. induction r as [|m r IH]; intros p s Hp Hs; cbn [topup]; [done|].
  destruct (10 <=? length p)%nat; [done|].
  destruct (existsb (Z.eqb (id m)) s) eqn:E; [by apply IH|].
  apply IH.
  - apply NoDup_map_app_one; [done|]. rewrite <- Hs, <- existsb_id_In, E. done.
  - intros z. rewrite map_app. simpl. rewrite in_app_iff, Hs. simpl. intuition.
Qed.

Lemma topup_length (r p : list TmdbMovie) (s : list Z) :
  List.NoDup (map id r) → (length p <= 10)%nat → (∀ z, In z s ↔ In z (map id p)) →
  length (topup r p s) = Nat.min 10 (length p + length (List.filter (unseen s) r)).
Proof.
  revert p s. induction r as [|m r IH]; intros p s Hr Hp Hs; cbn [topup List.filter length]; [lia|].
  inversion Hr as [|? ? Hm Hr']; subst.
  destruct (Nat.leb_spec 10 (length p)); [lia|].
  unfold unseen at 1. destruct (existsb (Z.eqb (id m)) s) eqn:E; cbn [negb length].
  - by apply IH.
  - rewrite (IH (p ++ [m]) (id m :: s)); [|done| rewrite length_app; simpl; lia|].
    + rewrite length_app. cbn [length].
      rewrite (List.filter_ext_in (unseen (id m :: s)) (unseen s)); [lia|].
      intros x Hx. unfold unseen. simpl.
      destruct (Z.eqb_spec (id x) (id m)) as [Heq|]; [|done].
      exfalso. apply Hm. rewrite <- Heq. by apply in_map.
    + intros z. rewrite map_app. simpl. rewrite in_app_iff, Hs. simpl. intuition.
Qed.

Lemma unseen_count (r p : list TmdbMovie) (s : list Z) :
  List.NoDup (map id r) → List.NoDup (map id p) → incl (map id p) (map id r) →
  (∀ z, In z s ↔ In z (map id p)) →
  length (List.filter (unseen s) r) = (length r - length p)%nat.
Proof.
  intros Hr Hp Hincl Hs.
  pose (f := fun m : TmdbMovie => existsb (Z.eqb (id m)) s).
  assert (Hsplit := filter_split_length f r).
  assert (Hseen : length (List.filter f r) = length p).
  { rewrite <- (length_map id (List.filter f r)), <- (length_map id p).
    apply Nat.le_antisymm; apply List.NoDup_incl_length.
    - by apply NoDup_map_filter.
    - intros z Hz. apply in_map_iff in Hz as (m & <- & Hm).
      apply List.filter_In in Hm as [_ Hm]. unfold f in Hm.
      apply existsb_id_In in Hm. by apply Hs.
    - done.
    - intros z Hz. assert (Hz' := Hincl z Hz). apply in_map_iff in Hz' as (m & <- & Hm).
      apply in_map. apply List.filter_In. split; [done|].
      unfold f. apply existsb_id_In. by apply Hs. }
  change (List.filter (unseen s) r) with (List.filter (fun x => negb (f x)) r). lia.
Qed.

Lemma firstn_add_skipn {A} (n k : nat) (l : list A) :
  firstn (n + k) l = firstn n l ++ firstn k (skipn n l).
Proof.
  revert l. induction n as [|n IH]; intros l; simpl; [done|].
  destruct l as [|x l]; simpl; [by destruct k|]. by rewrite IH.
Qed.

Lemma In_firstn_In {A} (n : nat) (l : list A) (x : A) : In x (firstn n l) → In x l.
Proof. intros H. rewrite <- (List.firstn_skipn n l). apply in_or_app. by left. Qed.

Lemma NoDup_firstn_map {A B} (f : A → B) (n : nat) (l : list A) :
  List.NoDup (map f l) → List.NoDup (map f (firstn n l)).
Proof.
  intros H. rewrite <- List.firstn_map.
  apply (List.NoDup_app_remove_r _ (skipn n (map f l))). by rewrite List.firstn_skipn.
Qed.

Lemma NoDup_map_inj {A B} (f : A → B) (l : list A) :
  (∀ x y, f x = f y → x = y) → List.NoDup l → List.NoDup (map f l).
Proof.
  intros Hf. induction 1 as [|x l Hx Hl IH]; simpl; constructor; [|done].
  intros Hin. apply in_map_iff in Hin as (y & Hy & Hyl). apply Hf in Hy. subst. done.
Qed.

Lemma shuffleInPlace_state {A} (l : list A) (g : Z) :
  (shuffleInPlace l g).2 = g + Z.of_nat (length l - 1) * 1831565813.
Proof. apply shuffle_loop_state. Qed.

Lemma lxor_u32 (a b : Z) :
  0 <= a < 2 ^ 32 → 0 <= b < 2 ^ 32 → 0 <= Z.lxor a b < 2 ^ 32.
Proof.
  intros Ha Hb.
  assert (E : Z.lxor a b = Z.lxor a b mod 2 ^ 32).
  { apply Z.bits_inj'. intros k Hk. destruct (Z.lt_ge_cases k 32).
    - by rewrite Z.mod_pow2_bits_low by lia.
    - rewrite Z.mod_pow2_bits_high by lia. rewrite Z.lxor_spec.
      rewrite <- (Z.mod_small a (2 ^ 32)), <- (Z.mod_small b (2 ^ 32)) by lia.
      rewrite !Z.mod_pow2_bits_high by lia. done. }
  rewrite E. apply Z.mod_pos_bound. lia.
Qed.

Lemma u32_range (x : Z) : 0 <= u32 x < 2 ^ 32.
Proof. unfold u32. apply Z.mod_pos_bound. lia. Qed.

Lemma shiftr_u32 (a n : Z) : 0 <= n → 0 <= a < 2 ^ 32 → 0 <= Z.shiftr a n < 2 ^ 32.
Proof.
  intros Hn Ha. rewrite Z.shiftr_div_pow2 by done.
  assert (0 < 2 ^ n) by (apply Z.pow_pos_nonneg; lia).
  split; [apply Z.div_pos; lia|]. apply (Z.le_lt_trans _ a); [|lia].
  apply Z.div_le_upper_bound; [lia|]. nia.
Qed.

(** The generator's output is a uint32, so [rand()] lies in [[0, 1)]. *)
Lemma mulberry32_range (g : Z) : 0 <= (mulberry32_step g).1 < 2 ^ 32.
Proof.
  unfold mulberry32_step. cbn [fst].
  assert (Ht1 := u32_range (Z.lxor (u32 (g + 1831565813))
             (Z.shiftr (u32 (g + 1831565813)) 15) * Z.lor (u32 (g + 1831565813)) 1)).
  unfold imul. set (t1 := u32 (_ * _)).
  assert (Ht2 : 0 <= Z.lxor t1 (u32 (t1 + u32 (Z.lxor t1 (Z.shiftr t1 7) * Z.lor t1 61))) < 2 ^ 32).
  { apply lxor_u32; [done|apply u32_range]. }
  apply lxor_u32; [done|]. apply shiftr_u32; [lia|done].
Qed.

(** [Math.floor(rand() * (i + 1))] is an index in [[0, i]]. *)
Lemma rand_index_le (u : Z) (i : nat) : 0 <= u < 2 ^ 32 → (rand_index u i <= i)%nat.
Proof.
  intros Hu. unfold rand_index.
  assert (Hlt : u * Z.of_nat (S i) / 2 ^ 32 < Z.of_nat (S i)).
  { apply Z.div_lt_upper_bound; [lia|]. nia. }
  assert (0 <= u * Z.of_nat (S i) / 2 ^ 32) by (apply Z.div_pos; lia).
  lia.
Qed.

Lemma shuffle_buckets_eq (ranked : list TmdbMovie) (seed : Z) :
  shuffle_buckets ranked seed =
    let top := shuffleInPlace (firstn 60 ranked) seed in
    let mid := shuffleInPlace (firstn 160 (skipn 60 ranked)) top.2 in
    (top.1, mid.1, mid.2).
Proof.
  unfold shuffle_buckets. destruct (shuffleInPlace (firstn 60 ranked) seed) as [t g1].
  cbn [fst snd]. by destruct (shuffleInPlace (firstn 160 (skipn 60 ranked)) g1).
Qed.

Lemma first_picks_eq (ranked : list TmdbMovie) (seed : Z) :
  first_picks ranked seed =
    let top := shuffleInPlace (firstn 60 ranked) seed in
    let mid := shuffleInPlace (firstn 160 (skipn 60 ranked)) top.2 in
    firstn 6 top.1 ++ firstn 4 mid.1.
Proof. unfold first_picks. by rewrite shuffle_buckets_eq. Qed.

Lemma picks_perm {A} (T M : list A) :
  (firstn 6 T ++ firstn 4 M) ++ (skipn 6 T ++ skipn 4 M) ≡ₚ T ++ M.
Proof.
  rewrite <- app_assoc.
  transitivity (firstn 6 T ++ skipn 6 T ++ firstn 4 M ++ skipn 4 M).
  - apply Permutation_app_head. apply Permutation_app_swap_app.
  - rewrite app_assoc, !List.firstn_skipn. done.
Qed.

Lemma first_picks_perm (ranked : list TmdbMovie) (seed : Z) :
  ∃ rest, first_picks ranked seed ++ rest ≡ₚ firstn 220 ranked.
Proof.
  rewrite first_picks_eq. cbv zeta.
  eexists. rewrite picks_perm.
  change 220%nat with (60 + 160)%nat. rewrite firstn_add_skipn.
  apply Permutation_app; apply shuffleInPlace_perm.
Qed.

Lemma first_picks_length (ranked : list TmdbMovie) (seed : Z) :
  length (first_picks ranked seed) =
    (Nat.min 6 (Nat.min 60 (length ranked)) +
     Nat.min 4 (Nat.min 160 (length ranked - 60)))%nat.
Proof.
  rewrite first_picks_eq. cbv zeta.
  rewrite length_app, !List.length_firstn.
  rewrite !(Permutation_length (shuffleInPlace_perm _ _)).
  rewrite !List.length_firstn, List.length_skipn. done.
Qed.

Lemma first_picks_incl (ranked : list TmdbMovie) (seed : Z) :
  incl (first_picks ranked seed) (firstn 220 ranked).
Proof.
  destruct (first_picks_perm ranked seed) as [rest Hp].
  intros x Hx. apply (Permutation_in _ Hp). apply in_or_app. by left.
Qed.

Lemma first_picks_NoDup (ranked : list TmdbMovie) (seed : Z) :
  List.NoDup (map id ranked) → List.NoDup (map id (first_picks ranked seed)).
Proof.
  intros Hr. destruct (first_picks_perm ranked seed) as [rest Hp].
  apply (List.NoDup_app_remove_r _ (map id rest)). rewrite <- map_app.
  apply (Permutation_NoDup (l := map id (firstn 220 ranked))).
  - symmetry. by apply Permutation_map.
  - by apply NoDup_firstn_map.
Qed.

Lemma assemble_extends (ranked : list TmdbMovie) (seed : Z) :
  ∃ e, assemble ranked seed = first_picks ranked seed ++ e ∧ incl e ranked.
Proof.
  assert (Hl := first_picks_length ranked seed).
  unfold assemble. cbv zeta. set (p := first_picks ranked seed) in *.
  destruct (Nat.ltb_spec (length p) 10).
  - destruct (topup_extends ranked p (map id p)) as (e & -> & He).
    rewrite List.firstn_app, (List.firstn_all2 p) by lia.
    exists (firstn (10 - length p) e). split; [done|].
    intros x Hx. apply He. by apply In_firstn_In in Hx.
  - exists []. rewrite app_nil_r, List.firstn_all2 by lia. split; [done|]. intros x [].
Qed.

Lemma assemble_incl (ranked : list TmdbMovie) (seed : Z) :
  incl (assemble ranked seed) (firstn 220 ranked).
Proof.
  assert (Hl := first_picks_length ranked seed).
  destruct (Nat.le_gt_cases (length ranked) 220).
  - rewrite (List.firstn_all2 (n := 220) ranked) by done.
    destruct (assemble_extends ranked seed) as (e & -> & He).
    intros x Hx. apply in_app_or in Hx as [Hx|Hx]; [|by apply He].
    apply first_picks_incl in Hx. by apply In_firstn_In in Hx.
  - unfold assemble. cbv zeta.
    replace (length (first_picks ranked seed) <? 10)%nat with false
      by (symmetry; apply Nat.ltb_ge; lia).
    rewrite List.firstn_all2 by lia. apply first_picks_incl.
Qed.

Lemma assemble_NoDup (ranked : list TmdbMovie) (seed : Z) :
  List.NoDup (map id ranked) → List.NoDup (map id (assemble ranked seed)).
Proof.
  intros Hr. assert (Hp := first_picks_NoDup ranked seed Hr).
  unfold assemble. cbv zeta. apply NoDup_firstn_map.
  destruct (length (first_picks ranked seed) <? 10)%nat; [|done].
  apply topup_NoDup; [done|]. done.
Qed.

Lemma assemble_length (ranked : list TmdbMovie) (seed : Z) :
  List.NoDup (map id ranked) →
  length (assemble ranked seed) = Nat.min 10 (length ranked).
Proof.
  intros Hr.
  assert (Hl := first_picks_length ranked seed).
  assert (Hnd := first_picks_NoDup ranked seed Hr).
  assert (Hincl : incl (map id (first_picks ranked seed)) (map id ranked)).
  { intros z Hz. apply in_map_iff in Hz as (m & <- & Hm). apply in_map.
    apply first_picks_incl in Hm. by apply In_firstn_In in Hm. }
  unfold assemble. cbv zeta. set (p := first_picks ranked seed) in *.
  rewrite List.length_firstn.
  destruct (Nat.ltb_spec (length p) 10).
  - rewrite topup_length by (done || lia).
    rewrite (unseen_count ranked p (map id p)) by done. lia.
  - lia.
Qed.

(** ** The pipeline, unfolded *)

Lemma POST_cards_eq StringToNumber sid day curYear fetch raw :
  ∃ lc pc, POST_cards StringToNumber sid day curYear fetch raw =
    map (to_card StringToNumber (makeSignature (q (parse_request raw))))
      (assemble
         (rank (makeSignature (q (parse_request raw))) lc pc
            (genre_restrict (makeSignature (q (parse_request raw)))
               (hygiene_candidates (makeSignature (q (parse_request raw)))
                  (merge_slices (map fetch (slices_params (makeSignature (q (parse_request raw))) curYear)))
                  (likes (parse_request raw)) (passes (parse_request raw)))))
         (hashStringToSeed (seed_string sid day (reroll (parse_request raw))))).
Proof.
  unfold POST_cards, pick_movies.
  destruct (buildGenreWeights _ _ _) as [lc pc]. by exists lc, pc.
Qed.

Lemma restricted_rank_props sig lc pc candidates :
  List.NoDup (map id candidates) →
  List.NoDup (map id (rank sig lc pc (genre_restrict sig candidates))) ∧
  Nat.min 10 (length (rank sig lc pc (genre_restrict sig candidates))) =
    Nat.min 10 (length candidates) ∧
  incl (rank sig lc pc (genre_restrict sig candidates)) candidates.
Proof.
  intros Hn. assert (Hp := rank_perm sig lc pc (genre_restrict sig candidates)).
  rewrite (Permutation_length Hp).
  split; [|split].
  - apply (Permutation_NoDup (l := map id (genre_restrict sig candidates))).
    + symmetry. by apply Permutation_map.
    + destruct (genre_restrict_cases sig candidates) as [->|[-> _]]; [done|].
      by apply NoDup_map_filter.
  - destruct (genre_restrict_cases sig candidates) as [->|[E Hlen]]; [done|].
    assert (length (genre_restrict sig candidates) <= length candidates)%nat.
    { rewrite E. apply filter_length_le. }
    lia.
  - intros x Hx. apply (Permutation_in _ Hp) in Hx.
    destruct (genre_restrict_cases sig candidates) as [E|[E _]]; rewrite E in Hx; [done|].
    by apply List.filter_In in Hx as [Hx _].
Qed.

Lemma card_ids_NoDup StringToNumber sig (l : list TmdbMovie) :
  List.NoDup (map id l) → List.NoDup (map card_id (map (to_card StringToNumber sig) l)).
Proof.
  intros H. rewrite map_map.
  replace (map (fun x => card_id (to_card StringToNumber sig x)) l)
    with (map String_of_Z (map id l)) by (rewrite map_map; done).
  apply NoDup_map_inj; [|done].
  intros x y Hxy. unfold String_of_Z in Hxy. by apply (inj pretty) in Hxy.
Qed.

(** C6: the deck has [min(10, N)] cards with pairwise distinct ids, where
    [N] is the number of unique candidates left by the hygiene filters;
    it never exceeds 10 cards, and it has fewer than 10 only when fewer
    than 10 candidates survive the hygiene filters. *)
Theorem deck_length_distinct StringToNumber sid day curYear fetch raw :
  let req := parse_request raw in
  let sig := makeSignature (q req) in
  let candidates := hygiene_candidates sig
        (merge_slices (map fetch (slices_params sig curYear))) (likes req) (passes req) in
  let cards := POST_cards StringToNumber sid day curYear fetch raw in
  List.NoDup (map id candidates) ∧
  length cards = Nat.min 10 (length candidates) ∧
  List.NoDup (map card_id cards) ∧
  (length cards <= 10)%nat ∧
  ((length cards < 10)%nat → (length candidates < 10)%nat).
Proof.
  intros req sig candidates cards.
  assert (Hc : List.NoDup (map id candidates)) by apply hygiene_candidates_ids.
  destruct (POST_cards_eq StringToNumber sid day curYear fetch raw) as (lc & pc & E).
  destruct (restricted_rank_props sig lc pc candidates Hc) as (Hn & Hlen & _).
  unfold cards. rewrite E.
  unfold candidates, sig, req in *.
  set (r := rank _ _ _ _) in *. set (seed := hashStringToSeed _).
  rewrite length_map, assemble_length by done.
  split; [done|]. split; [lia|]. split; [|lia].
  apply card_ids_NoDup. by apply assemble_NoDup.
Qed.

Lemma set_has_In (s : list string) (x : string) : set_has s x = true ↔ In x s.
Proof.
  unfold set_has. rewrite existsb_exists. split.
  - intros (y & Hy & E). apply String.eqb_eq in E. by subst.
  - intros H. exists x. split; [done|]. apply String.eqb_refl.
Qed.

(** C5: every card of the deck comes from a fetched movie that has a
    non-empty poster path, at least 50 votes in gems mode and 200 votes
    otherwise, popularity at most 60 in gems mode (no bound otherwise), and
    an id in neither [likes] nor [passes]; this holds for every deck,
    whether or not the single-genre restriction was reverted. *)
Theorem deck_hygiene StringToNumber sid day curYear fetch raw :
  let req := parse_request raw in
  let sig := makeSignature (q req) in
  let merged := merge_slices (map fetch (slices_params sig curYear)) in
  Forall (fun c => ∃ m, In m merged ∧ c = to_card StringToNumber sig m ∧
      (∃ p, poster_path m = Some p ∧ p <> EmptyString) ∧
      (if underrated sig then (50 <= qnum_or_0 (vote_count m))%Q
       else (200 <= qnum_or_0 (vote_count m))%Q) ∧
      (if underrated sig then (qnum_or_0 (popularity m) <= 60)%Q else True) ∧
      ¬ In (String_of_Z (id m)) (likes req) ∧
      ¬ In (String_of_Z (id m)) (passes req))
    (POST_cards StringToNumber sid day curYear fetch raw).
Proof.
  intros req sig merged.
  destruct (POST_cards_eq StringToNumber sid day curYear fetch raw) as (lc & pc & E).
  rewrite E. unfold merged, sig, req in *.
  set (sig0 := makeSignature (q (parse_request raw))) in *.
  set (cands := hygiene_candidates sig0 _ _ _).
  destruct (restricted_rank_props sig0 lc pc cands) as (_ & _ & Hincl);
    [apply hygiene_candidates_ids|].
  apply List.Forall_forall. intros c Hc. apply in_map_iff in Hc as (m & <- & Hm).
  apply assemble_incl, In_firstn_In, Hincl in Hm.
  apply hygiene_candidates_in in Hm as (Hin & Hpo & Hv & Hpop & Hns).
  exists m. split; [done|]. split; [done|]. split; [|split; [|split]].
  - unfold has_poster in Hpo. destruct (poster_path m) as [p|]; [|discriminate].
    exists p. split; [done|]. intros ->. discriminate.
  - unfold votes_ok, minVotes in Hv. destruct (underrated sig0); by apply Qle_bool_iff in Hv.
  - unfold popularity_ok in Hpop. destruct (underrated sig0); [|done]. by apply Qle_bool_iff.
  - unfold not_seen in Hns. apply negb_true_iff in Hns.
    split; intros Hx; rewrite <- not_true_iff_false in Hns; apply Hns, set_has_In;
      apply in_or_app; [left|right]; done.
Qed.

(** C7: the shuffler works on [topBucket = ranked[0:60)] and
    [midBucket = ranked[60:220)], which are consecutive slices making up
    [ranked[0:220)]; it shuffles [topBucket] from the seed first and then
    [midBucket] from the generator state the first shuffle left (one
    generator, advanced once per swap); each shuffle is a permutation of its
    bucket, and every drawn index [floor(rand() * (i+1))] is at most [i];
    the deck starts with the first 6 shuffled entries of [topBucket] and the
    first 4 of [midBucket], any top-up comes after them, and no candidate
    ranked at position 220 or later is picked unless it is also earlier in the
    ranking. *)
Theorem shuffle_two_buckets (ranked : list TmdbMovie) (seed : Z) :
  let topBucket := firstn 60 ranked in
  let midBucket := firstn 160 (skipn 60 ranked) in
  let g1 := seed + Z.of_nat (length topBucket - 1) * 1831565813 in
  topBucket ++ midBucket = firstn 220 ranked ∧
  shuffle_buckets ranked seed =
    ((shuffleInPlace topBucket seed).1, (shuffleInPlace midBucket g1).1,
     g1 + Z.of_nat (length midBucket - 1) * 1831565813) ∧
  (shuffleInPlace topBucket seed).1 ≡ₚ topBucket ∧
  (shuffleInPlace midBucket g1).1 ≡ₚ midBucket ∧
  (∀ g i, (rand_index (mulberry32_step g).1 i <= i)%nat) ∧
  first_picks ranked seed =
    firstn 6 (shuffleInPlace topBucket seed).1 ++ firstn 4 (shuffleInPlace midBucket g1).1 ∧
  (∃ e, assemble ranked seed = first_picks ranked seed ++ e) ∧
  incl (assemble ranked seed) (firstn 220 ranked).
Proof.
  intros topBucket midBucket g1.
  split; [|split; [|split; [|split; [|split; [|split; [|split]]]]]].
  - symmetry. change 220%nat with (60 + 160)%nat. apply firstn_add_skipn.
  - unfold g1, topBucket, midBucket. rewrite shuffle_buckets_eq. cbv zeta.
    by rewrite !shuffleInPlace_state.
  - apply shuffleInPlace_perm.
  - apply shuffleInPlace_perm.
  - intros g i. apply rand_index_le, mulberry32_range.
  - unfold g1, topBucket, midBucket. rewrite first_picks_eq. cbv zeta.
    by rewrite shuffleInPlace_state.
  - destruct (assemble_extends ranked seed) as (e & He & _). by exists e.
  - apply assemble_incl.
Qed.

(** C1: two runs of [POST] that use the same session id, day, request body
    and the same four fetched slices return the same cards, whatever their
    cookies; the cards are those of [POST_cards], whose only source of
    randomness is the seed hashed from [sessionId:day:reroll]. *)
Theorem deck_deterministic StringToNumber (cookie1 cookie2 : option string) day curYear
    (fetch1 fetch2 : Catalog) raw sid d1 d2 :
  map fetch1 (slices_params (makeSignature (q (parse_request raw))) curYear) =
  map fetch2 (slices_params (makeSignature (q (parse_request raw))) curYear) →
  POST_run StringToNumber cookie1 day curYear fetch1 raw sid d1 →
  POST_run StringToNumber cookie2 day curYear fetch2 raw sid d2 →
  d1 = d2 ∧ d1 = POST_cards StringToNumber sid day curYear fetch1 raw ∧
  ∃ ranked, pick_movies sid day curYear fetch1 (parse_request raw) =
    assemble ranked (hashStringToSeed (seed_string sid day (reroll (parse_request raw)))).
Proof.
  intros Hf H1 H2.
  assert (Hd1 : d1 = POST_cards StringToNumber sid day curYear fetch1 raw)
    by (inversion H1; subst; done).
  assert (Hd2 : d2 = POST_cards StringToNumber sid day curYear fetch2 raw)
    by (inversion H2; subst; done).
  split; [|split; [done|]].
  - rewrite Hd1, Hd2. unfold POST_cards, pick_movies. cbv zeta. by rewrite Hf.
  - unfold pick_movies. cbv zeta.
    destruct (buildGenreWeights _ _ _) as [lc pc]. by eexists.
Qed.

Lemma deck_deterministic_witness :
  map (fun _ : DiscoverParams => @nil TmdbMovie)
      (slices_params (makeSignature (q (parse_request None))) 2026) =
  map (fun _ : DiscoverParams => @nil TmdbMovie)
      (slices_params (makeSignature (q (parse_request None))) 2026) ∧
  POST_run (fun _ => NNaN) (Some "s"%string) "2026-10-19" 2026
    (fun _ => []) None "s"
    (POST_cards (fun _ => NNaN) "s" "2026-10-19" 2026 (fun _ => []) None) ∧
  (POST_cards (fun _ => NNaN) "s" "2026-10-19" 2026 (fun _ => []) None =
     POST_cards (fun _ => NNaN) "s" "2026-10-19" 2026 (fun _ => []) None ∧
   POST_cards (fun _ => NNaN) "s" "2026-10-19" 2026 (fun _ => []) None =
     POST_cards (fun _ => NNaN) "s" "2026-10-19" 2026 (fun _ => []) None ∧
   ∃ ranked, pick_movies "s" "2026-10-19" 2026 (fun _ => [])
       (parse_request None) =
     assemble ranked (hashStringToSeed (seed_string "s" "2026-10-19" (reroll (parse_request None))))).
Proof.
  assert (H : POST_run (fun _ => NNaN) (Some "s"%string) "2026-10-19" 2026
    (fun _ => []) None "s"
    (POST_cards (fun _ => NNaN) "s" "2026-10-19" 2026 (fun _ => []) None))
    by (apply POST_with_cookie; [reflexivity|discriminate]).
  split; [reflexivity|]. split; [exact H|].
  exact (deck_deterministic (fun _ => NNaN) (Some "s"%string) (Some "s"%string)
           "2026-10-19" 2026 (fun _ => []) (fun _ => []) None "s" _ _ eq_refl H H).
Defined.

(** ** Further properties of the route *)

(** The generator: [rand()] is in [[0, 1)], and its value depends on the
    state only modulo [2^32]. *)
Theorem mulberry32_unit_interval (g : Z) :
  (0 <= IZR (fst (mulberry32_step g)) / 4294967296 < 1)%R ∧
  fst (mulberry32_step (g + 2 ^ 32)) = fst (mulberry32_step g).
Proof.
  split.
  - destruct (mulberry32_range g) as [H0 H1].
    replace (2 ^ 32) with 4294967296 in H1 by reflexivity.
    apply IZR_le in H0. apply IZR_lt in H1.
    split.
    + apply Rmult_le_pos; [done|]. left. apply Rinv_0_lt_compat. lra.
    + apply (Rmult_lt_reg_r 4294967296); [lra|].
      unfold Rdiv. rewrite Rmult_assoc, Rinv_l by lra. lra.
  - unfold mulberry32_step. cbn [fst].
    replace (u32 (g + 2 ^ 32 + 1831565813)) with (u32 (g + 1831565813)); [done|].
    unfold u32. replace (g + 2 ^ 32 + 1831565813) with ((g + 1831565813) + 1 * 2 ^ 32) by ring.
    by rewrite Z_mod_plus_full.
Qed.

(** [shuffleInPlace] on an empty or one-element array: the array is left
    as it is and [rand] is never called. *)
Theorem shuffleInPlace_short {A} (arr : list A) (g : Z) :
  (length arr <= 1)%nat → shuffleInPlace arr g = (arr, g).
Proof.
  intros H. unfold shuffleInPlace. by replace (length arr - 1)%nat with 0%nat by lia.
Qed.

Lemma shuffleInPlace_short_witness : (length [7%Z] <= 1)%nat ∧ shuffleInPlace [7%Z] 5 = ([7%Z], 5).
Proof. split; [simpl; lia|]. apply shuffleInPlace_short. simpl. lia. Defined.

Lemma insert_desc_in {A} (x : A * R) (l : list (A * R)) (z : A * R) :
  In z (insert_desc x l) → z = x ∨ In z l.
Proof.
  intros Hz. apply (Permutation_in _ (insert_desc_perm x l)) in Hz.
  destruct Hz as [->|Hz]; [by left|by right].
Qed.

Lemma insert_desc_sorted {A} (x : A * R) (l : list (A * R)) :
  StronglySorted (fun a b => (snd b <= snd a)%R) l →
  StronglySorted (fun a b => (snd b <= snd a)%R) (insert_desc x l).
Proof.
  induction l as [|y l IH]; intros Hs; simpl.
  - repeat constructor.
  - apply StronglySorted_inv in Hs as [Hs Hy].
    destruct (Rlt_dec (snd y) (snd x)) as [Hlt|Hge].
    + constructor; [by constructor|].
      apply List.Forall_forall. intros z [<-|Hz]; [lra|].
      rewrite List.Forall_forall in Hy. specialize (Hy z Hz). lra.
    + constructor; [by apply IH|].
      apply List.Forall_forall. intros z Hz. apply insert_desc_in in Hz as [->|Hz]; [lra|].
      rewrite List.Forall_forall in Hy. by apply Hy.
Qed.

Lemma sort_desc_sorted {A} (l : list (A * R)) :
  StronglySorted (fun a b => (snd b <= snd a)%R) (sort_desc l).
Proof.
  unfold sort_desc.
  assert (Hgen : ∀ acc, StronglySorted (fun a b : A * R => (snd b <= snd a)%R) acc →
    StronglySorted (fun a b : A * R => (snd b <= snd a)%R)
      (fold_left (fun acc x => insert_desc x acc) l acc)).
  { induction l as [|x l IH]; intros acc Hacc; simpl; [done|].
    apply IH. by apply insert_desc_sorted. }
  apply Hgen. constructor.
Qed.

Lemma StronglySorted_map_fst {A} (f : A → R) (l : list (A * R)) :
  (∀ p, In p l → snd p = f (fst p)) →
  StronglySorted (fun a b => (snd b <= snd a)%R) l →
  StronglySorted (fun a b => (f b <= f a)%R) (map fst l).
Proof.
  induction l as [|p l IH]; intros Hf Hs; simpl; [constructor|].
  apply StronglySorted_inv in Hs as [Hs Hp]. constructor.
  - apply IH; [|done]. intros p' Hp'. apply Hf. by right.
  - apply List.Forall_forall. intros a Ha. apply in_map_iff in Ha as (p' & <- & Hp').
    rewrite List.Forall_forall in Hp. specialize (Hp p' Hp').
    rewrite <- (Hf p) by (by left). rewrite <- (Hf p') by (by right). done.
Qed.

Lemma StronglySorted_split {A} (Rel : A → A → Prop) (n : nat) (l : list A) (a b : A) :
  StronglySorted Rel l → In a (firstn n l) → In b (skipn n l) → Rel a b.
Proof.
  revert l. induction n as [|n IH]; intros l Hs Ha Hb; [destruct Ha|].
  destruct l as [|x l]; [destruct Ha|]. simpl in Ha, Hb.
  apply StronglySorted_inv in Hs as [Hs Hx]. destruct Ha as [<-|Ha].
  - rewrite List.Forall_forall in Hx. apply Hx.
    rewrite <- (List.firstn_skipn n l). apply in_or_app. by right.
  - by apply (IH l).
Qed.

(** [ranked] is in non-increasing order of score: every candidate placed
    before position [n] (for instance in [topBucket], [n = 60]) scores at
    least as high as every candidate placed at [n] or later. *)
Theorem rank_sorted sig likeCounts passCounts filtered :
  let ranked := rank sig likeCounts passCounts filtered in
  StronglySorted (fun a b => (scoreMovie b sig likeCounts passCounts <=
                              scoreMovie a sig likeCounts passCounts)%R) ranked ∧
  ∀ n a b, In a (firstn n ranked) → In b (skipn n ranked) →
    (scoreMovie b sig likeCounts passCounts <= scoreMovie a sig likeCounts passCounts)%R.
Proof.
  intros ranked.
  assert (Hs : StronglySorted (fun a b => (scoreMovie b sig likeCounts passCounts <=
                              scoreMovie a sig likeCounts passCounts)%R) ranked).
  { unfold ranked, rank. apply StronglySorted_map_fst; [|apply sort_desc_sorted].
    intros p Hp. apply (Permutation_in _ (sort_desc_perm _)) in Hp.
    apply in_map_iff in Hp as (m & <- & _). done. }
  split; [done|]. intros n a b Ha Hb.
  exact (StronglySorted_split (fun a b => (scoreMovie b sig likeCounts passCounts <=
    scoreMovie a sig likeCounts passCounts)%R) n ranked a b Hs Ha Hb).
Qed.

Lemma log10_le (x y : R) : (0 < x)%R → (x <= y)%R → (log10 x <= log10 y)%R.
Proof.
  intros Hx Hxy. unfold log10, Rdiv.
  assert (H10 : (0 < ln 10)%R) by (rewrite <- ln_1; apply ln_increasing; lra).
  apply Rmult_le_compat_r; [left; by apply Rinv_0_lt_compat|].
  destruct Hxy as [Hlt|<-]; [left; by apply ln_increasing|lra].
Qed.

Lemma log10_succ_le (a b : Q) : (0 <= a)%Q → (a <= b)%Q →
  (log10 (Q2R a + 1) <= log10 (Q2R b + 1))%R.
Proof.
  intros Ha Hab. apply Qle_Rle in Ha, Hab. replace (Q2R 0) with 0%R in Ha by (unfold Q2R; simpl; lra).
  apply log10_le; lra.
Qed.

(** In bad-movie mode the [voteAvg * 2] baseline is cancelled by
    [s -= voteAvg * 2]: the vote average of a candidate has no effect on its
    score. *)
Theorem scoreMovie_badMovie_ignores_vote_average m sig likeCounts passCounts (a b : option Q) :
  badMovie sig = true →
  scoreMovie (with_vote_average m a) sig likeCounts passCounts =
  scoreMovie (with_vote_average m b) sig likeCounts passCounts.
Proof.
  intros Hb. rewrite !scoreMovie_as_formula. unfold score_formula, bonus.
  rewrite Hb. cbn [vote_average vote_count popularity genre_ids overview with_vote_average].
  unfold overview_text, genre_has, genres_of. cbn [overview genre_ids with_vote_average].
  ring.
Qed.

Lemma scoreMovie_badMovie_ignores_vote_average_witness :
  badMovie (mkSignature false false false false false false true) = true ∧
  scoreMovie (with_vote_average (mkMovie 1 "m" None None None None None None None) (Some 9%Q))
    (mkSignature false false false false false false true) [] [] =
  scoreMovie (with_vote_average (mkMovie 1 "m" None None None None None None None) (Some 1%Q))
    (mkSignature false false false false false false true) [] [].
Proof. split; [reflexivity|]. apply scoreMovie_badMovie_ignores_vote_average. reflexivity. Defined.

(** The confidence term [Math.log10(voteCount + 1) * 3] makes the score
    non-decreasing in the vote count, in every mode: raising a non-negative
    vote count never lowers a candidate's score. *)
Theorem scoreMovie_vote_count_mono m sig likeCounts passCounts (c1 c2 : Q) :
  (0 <= c1)%Q → (c1 <= c2)%Q →
  (scoreMovie (with_vote_count m (Some c1)) sig likeCounts passCounts <=
   scoreMovie (with_vote_count m (Some c2)) sig likeCounts passCounts)%R.
Proof.
  intros H1 H12. pose proof (log10_succ_le c1 c2 H1 H12) as HL.
  rewrite !scoreMovie_as_formula. unfold score_formula.
  cbn [vote_average vote_count popularity with_vote_count num_or_0].
  unfold overview_text, genre_has, genres_of. cbn [overview genre_ids with_vote_count].
  lra.
Qed.

Lemma scoreMovie_vote_count_mono_witness :
  (0 <= 3)%Q ∧ (3 <= 40)%Q ∧
  (scoreMovie (with_vote_count (mkMovie 1 "m" None None None None None None None) (Some 3%Q))
     (mkSignature false false false false false false false) [] [] <=
   scoreMovie (with_vote_count (mkMovie 1 "m" None None None None None None None) (Some 40%Q))
     (mkSignature false false false false false false false) [] [])%R.
Proof.
  assert (H0 : (0 <= 3)%Q) by (unfold Qle; simpl; lia).
  assert (H1 : (3 <= 40)%Q) by (unfold Qle; simpl; lia).
  split; [exact H0|]. split; [exact H1|].
  apply scoreMovie_vote_count_mono; assumption.
Defined.

(** Popularity, by mode: with [underrated] on and [badMovie] off a more
    popular candidate never scores higher; with [badMovie] on and
    [underrated] off it never scores lower; with both off popularity has no
    effect. *)
Theorem scoreMovie_popularity_by_mode m sig likeCounts passCounts (p1 p2 : Q) :
  (0 <= p1)%Q → (p1 <= p2)%Q →
  (underrated sig = true → badMovie sig = false →
     (scoreMovie (with_popularity m (Some p2)) sig likeCounts passCounts <=
      scoreMovie (with_popularity m (Some p1)) sig likeCounts passCounts)%R) ∧
  (badMovie sig = true → underrated sig = false →
     (scoreMovie (with_popularity m (Some p1)) sig likeCounts passCounts <=
      scoreMovie (with_popularity m (Some p2)) sig likeCounts passCounts)%R) ∧
  (underrated sig = false → badMovie sig = false →
     scoreMovie (with_popularity m (Some p1)) sig likeCounts passCounts =
     scoreMovie (with_popularity m (Some p2)) sig likeCounts passCounts).
Proof.
  intros H1 H12. pose proof (log10_succ_le p1 p2 H1 H12) as HL.
  rewrite !scoreMovie_as_formula. unfold score_formula, bonus.
  cbn [vote_average vote_count popularity with_popularity num_or_0].
  unfold overview_text, genre_has, genres_of. cbn [overview genre_ids with_popularity].
  split; [|split]; intros Hu Hb; rewrite Hu, Hb.
  - assert (Hm : (Rmax 0 (30 - 10 * log10 (Q2R p2 + 1)) <=
                  Rmax 0 (30 - 10 * log10 (Q2R p1 + 1)))%R).
    { unfold Rmax. repeat destruct Rle_dec; lra. }
    lra.
  - lra.
  - ring.
Qed.

Lemma scoreMovie_popularity_by_mode_witness :
  (0 <= 2)%Q ∧ (2 <= 500)%Q ∧
  (scoreMovie (with_popularity (mkMovie 1 "m" None None None None None None None) (Some 500%Q))
     (mkSignature false false false false false true false) [] [] <=
   scoreMovie (with_popularity (mkMovie 1 "m" None None None None None None None) (Some 2%Q))
     (mkSignature false false false false false true false) [] [])%R.
Proof.
  assert (H0 : (0 <= 2)%Q) by (unfold Qle; simpl; lia).
  assert (H1 : (2 <= 500)%Q) by (unfold Qle; simpl; lia).
  split; [exact H0|]. split; [exact H1|].
  apply (proj1 (scoreMovie_popularity_by_mode _ _ _ _ 2 500 H0 H1)); reflexivity.
Defined.

Lemma JSMap_set_keys {V} (k : Z) (v : V) (m : JSMap.t V) :
  JSMap.keys (JSMap.set k v m) =
  if existsb (Z.eqb k) (JSMap.keys m) then JSMap.keys m else JSMap.keys m ++ [k].
Proof.
  unfold JSMap.keys. induction m as [|[k1 v1] m IH]; simpl; [done|].
  destruct (Z.eqb_spec k k1) as [->|Hne]; simpl; [done|].
  rewrite IH. by destruct (existsb (Z.eqb k) (map fst m)).
Qed.

(** [byId] after the dedupe loop: its keys are the ids of [merged] in the
    order of their first occurrence, and each id maps to the LAST movie of
    [merged] carrying it (a later duplicate overwrites the value but keeps
    the key's position). *)
Theorem dedupe_by_id_first_key_last_value (merged : list TmdbMovie) :
  JSMap.keys (dedupe_by_id merged) = first_occ (map id merged) ∧
  ∀ k, JSMap.get k (dedupe_by_id merged) = last_with_id merged k.
Proof.
  unfold dedupe_by_id, first_occ, last_with_id. split.
  - assert (Hg : ∀ acc, JSMap.keys (fold_left (fun byId m => JSMap.set (id m) m byId) merged acc) =
      fold_left (fun acc z => if existsb (Z.eqb z) acc then acc else acc ++ [z])
        (map id merged) (JSMap.keys acc)).
    { induction merged as [|m merged IH]; intros acc; simpl; [done|].
      rewrite IH. f_equal. apply JSMap_set_keys. }
    apply (Hg JSMap.empty).
  - intros k.
    assert (Hg : ∀ acc, JSMap.get k (fold_left (fun byId m => JSMap.set (id m) m byId) merged acc) =
      fold_left (fun acc m => if Z.eqb (id m) k then Some m else acc) merged (JSMap.get k acc)).
    { induction merged as [|m merged IH]; intros acc; simpl; [done|].
      rewrite IH. f_equal. rewrite JSMap_get_set.
      destruct (Z.eqb_spec k (id m)), (Z.eqb_spec (id m) k); congruence. }
    apply (Hg JSMap.empty).
Qed.

(** ** Further properties of the page *)

Lemma only_strings_map_JStr (l : list string) : only_strings (map JStr l) = l.
Proof. induction l as [|s l IH]; simpl; [done|]. by rewrite IH. Qed.

Lemma parse_deck_request_body query r ls ps :
  parse_request (Some (deck_request_body query r ls ps)) =
  {| q := trim query; reroll := r; likes := slice_last 200 ls; passes := slice_last 200 ps |}.
Proof.
  unfold parse_request, parse_body, deck_request_body, getStringField, getNumberField,
    getStringArray, lookup_field.
  simpl. by rewrite !only_strings_map_JStr.
Qed.

Lemma slice_last_length {A} (n : nat) (l : list A) : (length (slice_last n l) <= n)%nat.
Proof. unfold slice_last. rewrite List.length_skipn. lia. Qed.

Lemma slice_last_suffix {A} (n : nat) (l : list A) : ∃ pre, l = pre ++ slice_last n l.
Proof. unfold slice_last. exists (firstn (length l - n) l). by rewrite List.firstn_skipn. Qed.


Lemma set_add_incl (s : list string) (x : string) :
  In x (set_add s x) ∧ incl s (set_add s x) ∧
  (List.NoDup s → List.NoDup (set_add s x)).
Proof.
  unfold set_add. destruct (set_has s x) eqn:E.
  - apply set_has_In in E. split; [done|]. split; [apply incl_refl|done].
  - split; [apply in_or_app; right; by left|]. split; [intros y Hy; apply in_or_app; by left|].
    intros Hnd. apply (Permutation_NoDup (Permutation_cons_append s x)).
    constructor; [|done]. intros Hy. apply set_has_In in Hy. congruence.
Qed.

Lemma current_Some_index (st : UiState) (c : DeckCard) :
  current st = Some c → Nat.min (ui_index st + 1) (length (ui_cards st)) = S (ui_index st).
Proof.
  unfold current. intros H. assert (Hl : (ui_index st < length (ui_cards st))%nat)
    by (apply nth_error_Some; congruence). lia.
Qed.


(** The request body the page sends is read back by [POST] as sent: the
    query (trimmed by the server), the reroll counter, and the last 200
    entries of [likes] and of [passes], so the server never sees more than
    200 of either. *)
Theorem deck_request_body_round_trip (query : string) (r : Z) (ls ps : list string) :
  parse_request (Some (deck_request_body query r ls ps)) =
    {| q := trim query; reroll := r; likes := slice_last 200 ls;
       passes := slice_last 200 ps |} ∧
  (length (likes (parse_request (Some (deck_request_body query r ls ps)))) <= 200)%nat ∧
  (length (passes (parse_request (Some (deck_request_body query r ls ps)))) <= 200)%nat.
Proof.
  rewrite parse_deck_request_body. cbn [likes passes].
  split; [done|]. split; apply slice_last_length.
Qed.

(** [keep] and [pass] do nothing when there is no current card; otherwise
    they add the current card's id to [likes] (resp. [passes]) without
    duplicating it and without dropping any earlier entry, and advance the
    index by one, leaving the deck and the other set unchanged. *)
Theorem keep_pass_effect (st : UiState) :
  (current st = None → keep st = st ∧ pass st = st) ∧
  ∀ c, current st = Some c →
    (In (card_id c) (ui_likes (keep st)) ∧ incl (ui_likes st) (ui_likes (keep st)) ∧
     (List.NoDup (ui_likes st) → List.NoDup (ui_likes (keep st))) ∧
     ui_passes (keep st) = ui_passes st ∧ ui_cards (keep st) = ui_cards st ∧
     ui_index (keep st) = S (ui_index st)) ∧
    (In (card_id c) (ui_passes (pass st)) ∧ incl (ui_passes st) (ui_passes (pass st)) ∧
     (List.NoDup (ui_passes st) → List.NoDup (ui_passes (pass st))) ∧
     ui_likes (pass st) = ui_likes st ∧ ui_cards (pass st) = ui_cards st ∧
     ui_index (pass st) = S (ui_index st)).
Proof.
  split.
  - intros H. unfold keep, pass. by rewrite H.
  - intros c H. pose proof (current_Some_index st c H) as Hi.
    unfold keep, pass. rewrite H. cbn [ui_likes ui_passes ui_cards ui_index].
    rewrite Hi.
    destruct (set_add_incl (ui_likes st) (card_id c)) as (? & ? & ?).
    destruct (set_add_incl (ui_passes st) (card_id c)) as (? & ? & ?).
    split; repeat split; auto.
Qed.

Lemma keep_pass_effect_witness :
  current (mkUi "q" false None [mkCard "7" "T" 2000 KMovie "r" None] 0 0 [] []) =
    Some (mkCard "7" "T" 2000 KMovie "r" None) ∧
  In (card_id (mkCard "7" "T" 2000 KMovie "r" None))
     (ui_likes (keep (mkUi "q" false None [mkCard "7" "T" 2000 KMovie "r" None] 0 0 [] []))).
Proof.
  split; [reflexivity|].
  exact (proj1 (proj1 (proj2 (keep_pass_effect (mkUi "q" false None [mkCard "7" "T" 2000 KMovie "r" None] 0 0 [] []))
           (mkCard "7" "T" 2000 KMovie "r" None) eq_refl))).
Defined.



(** While [getPicks] waits for its response the deck is empty, so Keep and
    Pass do nothing; while [rerollPicks] waits, the old deck stays on screen
    with the index reset to 0, so a Keep in that window records the old
    deck's first card and moves the index to 1, and the new deck, once it
    arrives, is shown from its SECOND card. *)
Theorem picks_in_flight_keep (st : UiState) (c0 : DeckCard) (rest : list DeckCard) :
  keep (fst (getPicks_start st)) = fst (getPicks_start st) ∧
  pass (fst (getPicks_start st)) = fst (getPicks_start st) ∧
  (ui_cards st = c0 :: rest →
   ui_likes (keep (fst (rerollPicks_start st))) = set_add (ui_likes st) (card_id c0) ∧
   ∀ cs, ui_index (finish (keep (fst (rerollPicks_start st))) (ApiOk (Some cs))) = 1%nat ∧
         current (finish (keep (fst (rerollPicks_start st))) (ApiOk (Some cs))) = nth_error cs 1).
Proof.
  split; [done|]. split; [done|]. intros Hc.
  unfold rerollPicks_start, keep, current. cbn [fst ui_cards ui_index]. rewrite Hc. simpl.
  split; [done|]. intros cs. done.
Qed.

Lemma picks_in_flight_keep_witness :
  ui_cards (mkUi "q" false None [mkCard "7" "T" 2000 KMovie "r" None] 0 0 [] []) =
    [mkCard "7" "T" 2000 KMovie "r" None] ∧
  current (finish (keep (fst (rerollPicks_start
     (mkUi "q" false None [mkCard "7" "T" 2000 KMovie "r" None] 0 0 [] []))))
     (ApiOk (Some [mkCard "1" "A" 2001 KMovie "r" None; mkCard "2" "B" 2002 KMovie "r" None]))) =
    Some (mkCard "2" "B" 2002 KMovie "r" None).
Proof.
  split; [reflexivity|].
  exact (proj2 (proj2 (proj2 (proj2 (picks_in_flight_keep
    (mkUi "q" false None [mkCard "7" "T" 2000 KMovie "r" None] 0 0 [] [])
    (mkCard "7" "T" 2000 KMovie "r" None) [])) eq_refl)
    [mkCard "1" "A" 2001 KMovie "r" None; mkCard "2" "B" 2002 KMovie "r" None])).
Defined.

Lemma ui_step_reroll_kept (st : UiState) (a : UiAction) :
  a ≠ AReroll → a ≠ AGetPicks → ui_reroll (fst (ui_step st a)) = ui_reroll st ∧ snd (ui_step st a) = None.
Proof.
  intros H1 H2. destruct a as [| | | |r]; try congruence; simpl.
  - unfold keep. by destruct (current st).
  - unfold pass. by destruct (current st).
  - by destruct r.
Qed.

Lemma ui_run_rerolls (acts : list UiAction) (st : UiState) :
  ¬ In AGetPicks acts →
  map sent_reroll (snd (ui_run st acts)) =
  map (fun i => ui_reroll st + Z.of_nat i) (seq 1 (count_rerolls acts)).
Proof.
  unfold count_rerolls. revert st. induction acts as [|a acts IH]; intros st Hn; [done|].
  assert (Hn' : ¬ In AGetPicks acts) by (intros H; apply Hn; by right).
  assert (Ha : a ≠ AGetPicks) by (intros ->; apply Hn; by left).
  cbn [ui_run]. destruct a as [| | | |r].
  - pose proof (ui_step_reroll_kept st AKeep ltac:(discriminate) ltac:(discriminate)) as [Hr Hs].
    destruct (ui_step st AKeep) as [st1 o] eqn:E. cbn [fst snd] in Hr, Hs. subst o.
    destruct (ui_run st1 acts) as [st2 sent] eqn:E2. cbn [snd List.filter].
    rewrite <- Hr. specialize (IH st1 Hn'). by rewrite E2 in IH.
  - pose proof (ui_step_reroll_kept st APass ltac:(discriminate) ltac:(discriminate)) as [Hr Hs].
    destruct (ui_step st APass) as [st1 o] eqn:E. cbn [fst snd] in Hr, Hs. subst o.
    destruct (ui_run st1 acts) as [st2 sent] eqn:E2. cbn [snd List.filter].
    rewrite <- Hr. specialize (IH st1 Hn'). by rewrite E2 in IH.
  - congruence.
  - cbn [ui_step rerollPicks_start].
    destruct (ui_run _ acts) as [st2 sent] eqn:E2. cbn [snd List.filter length].
    match type of E2 with ui_run ?s _ = _ => specialize (IH s Hn') end.
    rewrite E2 in IH. cbn [snd ui_reroll] in IH.
    cbn [map seq]. unfold sent_reroll at 1. rewrite parse_deck_request_body. cbn [reroll].
    f_equal; try lia. rewrite IH, <- (seq_shift _ 1), map_map. apply map_ext. intros i. lia.
  - pose proof (ui_step_reroll_kept st (AFinish r) ltac:(discriminate) ltac:(discriminate)) as [Hr Hs].
    destruct (ui_step st (AFinish r)) as [st1 o] eqn:E. cbn [fst snd] in Hr, Hs. subst o.
    destruct (ui_run st1 acts) as [st2 sent] eqn:E2. cbn [snd List.filter].
    rewrite <- Hr. specialize (IH st1 Hn'). by rewrite E2 in IH.
Qed.

Lemma string_app_cancel_l (p s t : string) : (p ++ s = p ++ t)%string → s = t.
Proof. induction p as [|a p IH]; simpl; [done|]. intros H. injection H. apply IH. Qed.

Lemma seed_string_inj (sid day : string) (r1 r2 : Z) :
  seed_string sid day r1 = seed_string sid day r2 → r1 = r2.
Proof.
  unfold seed_string, String_of_Z. intros H.
  apply string_app_cancel_l, string_app_cancel_l, string_app_cancel_l, string_app_cancel_l in H.
  by apply (inj pretty) in H.
Qed.

(** After Get picks, as long as Get picks is not pressed again, the page
    sends the reroll values 0, 1, 2, ... with one increment per Reroll
    press (Keep, Pass and responses leave the counter alone), so within one
    session and day every request of the sequence gets a different shuffle
    seed string. *)
Theorem reroll_sequence (st : UiState) (acts : list UiAction) (sid day : string) :
  ¬ In AGetPicks acts →
  map sent_reroll (snd (ui_run st (AGetPicks :: acts))) =
    map Z.of_nat (seq 0 (S (count_rerolls acts))) ∧
  List.NoDup (map (fun b => seed_string sid day (sent_reroll b)) (snd (ui_run st (AGetPicks :: acts)))).
Proof.
  intros Hn.
  assert (E : map sent_reroll (snd (ui_run st (AGetPicks :: acts))) =
              map Z.of_nat (seq 0 (S (count_rerolls acts)))).
  { cbn [ui_run ui_step getPicks_start].
    destruct (ui_run _ acts) as [st2 sent] eqn:E2. cbn [snd map].
    match type of E2 with ui_run ?s _ = _ => pose proof (ui_run_rerolls acts s Hn) as IH end.
    rewrite E2 in IH. cbn [snd ui_reroll] in IH.
    unfold sent_reroll at 1. rewrite parse_deck_request_body. cbn [reroll seq map].
    f_equal; try lia. rewrite IH. apply map_ext. intros i. lia. }
  split; [done|].
  rewrite <- (map_map sent_reroll (seed_string sid day)), E.
  apply NoDup_map_inj; [intros x y; apply seed_string_inj|].
  apply NoDup_map_inj; [intros x y; lia|]. apply seq_NoDup.
Qed.

Lemma reroll_sequence_witness :
  ¬ In AGetPicks [AReroll; AKeep; AReroll] ∧
  map sent_reroll (snd (ui_run (mkUi "q" false None [] 0 5 [] []) [AGetPicks; AReroll; AKeep; AReroll])) =
    map Z.of_nat (seq 0 (S (count_rerolls [AReroll; AKeep; AReroll]))).
Proof.
  assert (Hn : ¬ In AGetPicks [AReroll; AKeep; AReroll]) by (simpl; intuition discriminate).
  split; [exact Hn|].
  exact (proj1 (reroll_sequence (mkUi "q" false None [] 0 5 [] []) [AReroll; AKeep; AReroll] "s" "d" Hn)).
Defined.

(** ** Further properties of the session cookie and the TMDB cache *)

(** A response that sets a fresh [sessionId] cookie is followed, when the
    client sends that cookie back with the same request on the same day,
    by a response with the same cards that sets no cookie: the deck of a
    new visitor is reproducible from its cookie. *)
Theorem session_cookie_follow_up StringToNumber (cookie : option string) day curYear fetch raw
    (resp1 resp2 : Response) (s : string) :
  POST_respond StringToNumber cookie day curYear fetch raw resp1 →
  resp_set_cookie resp1 = Some s →
  POST_respond StringToNumber (Some s) day curYear fetch raw resp2 →
  resp_cards resp2 = resp_cards resp1 ∧ resp_set_cookie resp2 = None ∧
  interpretedAs resp2 = interpretedAs resp1.
Proof.
  intros H1 Hs H2. destruct H1 as [sid1 Hc1 Hne1|uuid1 Hc1 Hlen1]; cbn [resp_set_cookie] in Hs;
    [discriminate|]. injection Hs as <-.
  destruct H2 as [sid2 Hc2 Hne2|uuid2 Hc2 Hlen2].
  - injection Hc2 as <-. done.
  - exfalso. destruct Hc2 as [Hc2|Hc2]; [discriminate|]. injection Hc2 as ->. discriminate.
Qed.

Lemma session_cookie_follow_up_witness :
  let resp1 := {| interpretedAs := ("sig=" ++ sig_json (makeSignature (q (parse_request None))))%string;
                  resp_cards := POST_cards (fun _ => NNaN) "123e4567-e89b-12d3-a456-426614174000"
                                  "Mon Oct 19 2026" 2026 (fun _ => []) None;
                  resp_set_cookie := Some "123e4567-e89b-12d3-a456-426614174000"%string |} in
  let resp2 := {| interpretedAs := ("sig=" ++ sig_json (makeSignature (q (parse_request None))))%string;
                  resp_cards := POST_cards (fun _ => NNaN) "123e4567-e89b-12d3-a456-426614174000"
                                  "Mon Oct 19 2026" 2026 (fun _ => []) None;
                  resp_set_cookie := None |} in
  POST_respond (fun _ => NNaN) None "Mon Oct 19 2026" 2026 (fun _ => []) None resp1 ∧
  POST_respond (fun _ => NNaN) (Some "123e4567-e89b-12d3-a456-426614174000"%string)
    "Mon Oct 19 2026" 2026 (fun _ => []) None resp2 ∧
  resp_cards resp2 = resp_cards resp1.
Proof.
  intros resp1 resp2.
  assert (H1 : POST_respond (fun _ => NNaN) None "Mon Oct 19 2026" 2026 (fun _ => []) None resp1)
    by (apply respond_fresh_session; [by left|reflexivity]).
  assert (H2 : POST_respond (fun _ => NNaN) (Some "123e4567-e89b-12d3-a456-426614174000"%string)
    "Mon Oct 19 2026" 2026 (fun _ => []) None resp2)
    by (apply respond_with_cookie; [reflexivity|discriminate]).
  split; [exact H1|]. split; [exact H2|].
  exact (proj1 (session_cookie_follow_up _ _ _ _ _ _ resp1 resp2 _ H1 eq_refl H2)).
Defined.

Lemma store_get_set_same (k : string) (e : list TmdbMovie * Z) (st : Store) :
  store_get k (store_set k e st) = Some e.
Proof.
  induction st as [|[k' e'] st IH]; simpl.
  - by rewrite String.eqb_refl.
  - destruct (String.eqb_spec k k'); simpl; [by rewrite String.eqb_refl|].
    destruct (String.eqb_spec k k'); [congruence|done].
Qed.

Lemma store_get_set_other (k k' : string) (e : list TmdbMovie * Z) (st : Store) :
  k' ≠ k → store_get k' (store_set k e st) = store_get k' st.
Proof.
  intros Hne. induction st as [|[k1 e1] st IH]; simpl.
  - destruct (String.eqb_spec k' k); [congruence|done].
  - destruct (String.eqb_spec k k1) as [->|]; simpl.
    + destruct (String.eqb_spec k' k1); [congruence|done].
    + by destruct (String.eqb k' k1).
Qed.

Lemma fetchDiscoverCustom_store enc n2s tok key now net p st :
  snd (fetchDiscoverCustom enc n2s tok key now net p st) = st ∨
  ∃ r, snd (fetchDiscoverCustom enc n2s tok key now net p st) =
         setJson now (cache_key n2s p) r (12 * 60 * 60) st.
Proof.
  unfold fetchDiscoverCustom. destruct (getJson _ _ _); [by left|].
  destruct (net _ _) as [|data]; [by left|]. right. by eexists.
Qed.

(** [fetchDiscoverCustom] and its cache: on a miss, a failed request throws
    and leaves the store as it was; a successful one returns [results ?? []]
    and stores it under the parameters' key, so that for the next 12 hours
    the same call returns it without touching the network (whatever the
    network would answer), and after 12 hours the key reads as absent. No
    other key is changed. *)
Theorem fetchDiscoverCustom_cache enc n2s tok apiKey now (net : Network) p st :
  getJson now (cache_key n2s p) st = None →
  (net (discover_url enc n2s apiKey p) (tmdbHeaders tok) = NetFail →
     fetchDiscoverCustom enc n2s tok apiKey now net p st = (None, st)) ∧
  ∀ data, net (discover_url enc n2s apiKey p) (tmdbHeaders tok) = NetOk data →
    let r := match data with Some r => r | None => [] end in
    let st1 := snd (fetchDiscoverCustom enc n2s tok apiKey now net p st) in
    fst (fetchDiscoverCustom enc n2s tok apiKey now net p st) = Some r ∧
    (∀ now' (net' : Network), now <= now' < now + 43200 →
       fetchDiscoverCustom enc n2s tok apiKey now' net' p st1 = (Some r, st1)) ∧
    (∀ now', now + 43200 <= now' → getJson now' (cache_key n2s p) st1 = None) ∧
    (∀ k now', k ≠ cache_key n2s p → getJson now' k st1 = getJson now' k st).
Proof.
  intros Hmiss. split.
  - intros Hf. unfold fetchDiscoverCustom. by rewrite Hmiss, Hf.
  - intros data Hd r st1.
    assert (E : fetchDiscoverCustom enc n2s tok apiKey now net p st =
                (Some r, setJson now (cache_key n2s p) r (12 * 60 * 60) st))
      by (unfold fetchDiscoverCustom; by rewrite Hmiss, Hd).
    unfold st1. rewrite E. cbn [fst snd]. split; [done|]. split; [|split].
    + intros now' net' Hnow. unfold fetchDiscoverCustom.
      assert (Hg : getJson now' (cache_key n2s p)
          (setJson now (cache_key n2s p) r (12 * 60 * 60) st) = Some r).
      { unfold getJson, setJson. rewrite store_get_set_same.
        destruct (Z.ltb_spec now' (now + 12 * 60 * 60)); [done|lia]. }
      by rewrite Hg.
    + intros now' Hnow. unfold getJson, setJson. rewrite store_get_set_same.
      destruct (Z.ltb_spec now' (now + 12 * 60 * 60)); [lia|done].
    + intros k now' Hk. unfold getJson, setJson. by rewrite store_get_set_other.
Qed.

Lemma fetchDiscoverCustom_cache_witness :
  let p := slice_params (makeSignature EmptyString) 1 "1996-01-01" "2006-12-31" in
  let net : Network := fun _ _ => NetOk (Some []) in
  getJson 1000 (cache_key (fun _ => "6.5"%string) p) [] = None ∧
  fetchDiscoverCustom (fun s => s) (fun _ => "6.5"%string) None None 2000 (fun _ _ => NetFail) p
    (snd (fetchDiscoverCustom (fun s => s) (fun _ => "6.5"%string) None None 1000 net p [])) =
  (Some [], snd (fetchDiscoverCustom (fun s => s) (fun _ => "6.5"%string) None None 1000 net p [])).
Proof.
  intros p net. assert (Hm : getJson 1000 (cache_key (fun _ => "6.5"%string) p) [] = None) by reflexivity.
  split; [exact Hm|].
  apply (proj2 (fetchDiscoverCustom_cache (fun s => s) (fun _ => "6.5"%string) None None 1000 net p [] Hm)
    (Some []) eq_refl); lia.
Defined.

Lemma string_app_cons (c : ascii) (a b : string) : (String c a ++ b = String c (a ++ b))%string.
Proof. reflexivity. Qed.

Lemma string_app_nil_r (a : string) : (a ++ EmptyString = a)%string.
Proof. induction a as [|x a IH]; [done|]. rewrite string_app_cons. by f_equal. Qed.

Lemma string_app_assoc (a b c : string) : ((a ++ b) ++ c = a ++ (b ++ c))%string.
Proof. induction a as [|x a IH]; [done|]. rewrite !string_app_cons. by f_equal. Qed.

Lemma all_digits_app (a b : string) :
  all_digits a = true → all_digits b = true → all_digits (a ++ b) = true.
Proof.
  induction a as [|x a IH]; simpl; [done|]. intros Ha Hb.
  apply andb_true_iff in Ha as [Hx Ha]. rewrite Hx. by apply IH.
Qed.

Lemma pretty_N_char_digit (x : N) : is_digit (pretty_N_char x) = true.
Proof. unfold pretty_N_char. by repeat case_match. Qed.

Lemma pretty_N_go_digits (x : N) (s : string) :
  ∃ pre, pretty_N_go x s = (pre ++ s)%string ∧ all_digits pre = true ∧ (x ≠ 0%N → pre ≠ EmptyString).
Proof.
  revert s. induction (N.lt_wf_0 x) as [x _ IH]; intros s.
  destruct (N.eq_dec x 0%N) as [->|Hx].
  - exists EmptyString. rewrite pretty_N_go_0. split; [done|]. split; [done|]. by intros [].
  - rewrite pretty_N_go_step by lia.
    destruct (IH (x `div` 10)%N ltac:(apply N.div_lt; lia)
                (String (pretty_N_char (x `mod` 10)) s)) as (pre & E & Hd & _).
    exists (pre ++ String (pretty_N_char (x `mod` 10)) EmptyString)%string.
    rewrite E, string_app_assoc. split; [done|]. split.
    + apply all_digits_app; [done|]. cbn [all_digits]. by rewrite pretty_N_char_digit.
    + intros _. destruct pre; discriminate.
Qed.

Lemma pretty_Z_shape (a : Z) :
  (∃ pre, pretty a = pre ∧ all_digits pre = true ∧ pre ≠ EmptyString) ∨
  (∃ pre, pretty a = String "-" pre ∧ all_digits pre = true).
Proof.
  destruct a as [|x|x].
  - left. exists "0"%string. done.
  - left. assert (Ep : pretty (Zpos x) = pretty_N_go (N.pos x) EmptyString).
    { unfold pretty at 1, pretty_Z. unfold pretty, pretty_positive, pretty_N. repeat case_decide; done. }
    rewrite Ep. destruct (pretty_N_go_digits (N.pos x) EmptyString) as (pre & E & Hd & Hne).
    rewrite E, string_app_nil_r. exists pre. split; [done|]. split; [done|]. by apply Hne.
  - right. assert (Ep : pretty (Zneg x) = String "-" (pretty_N_go (N.pos x) EmptyString)).
    { unfold pretty at 1, pretty_Z. unfold pretty, pretty_positive, pretty_N. repeat case_decide; done. }
    rewrite Ep. destruct (pretty_N_go_digits (N.pos x) EmptyString) as (pre & E & Hd & Hne).
    rewrite E, string_app_nil_r. by exists pre.
Qed.

Lemma digits_sep (pre1 pre2 : string) (c : ascii) (s t : string) :
  all_digits pre1 = true → all_digits pre2 = true → is_digit c = false →
  (pre1 ++ String c s = pre2 ++ String c t)%string → pre1 = pre2 ∧ s = t.
Proof.
  revert pre2. induction pre1 as [|x pre1 IH]; intros [|y pre2] H1 H2 Hc E;
    rewrite ?string_app_cons in E; cbn [all_digits String.append] in *.
  - by injection E.
  - injection E as -> _. apply andb_true_iff in H2 as [Hy _]. congruence.
  - injection E as <- _. apply andb_true_iff in H1 as [Hx _]. congruence.
  - injection E as -> E. apply andb_true_iff in H1 as [_ H1]. apply andb_true_iff in H2 as [_ H2].
    destruct (IH pre2 H1 H2 Hc E) as [-> ->]. done.
Qed.

Lemma pretty_Z_sep (a b : Z) (c : ascii) (s t : string) :
  is_digit c = false →
  (pretty a ++ String c s = pretty b ++ String c t)%string → a = b ∧ s = t.
Proof.
  intros Hc E.
  destruct (pretty_Z_shape a) as [(pa & Ea & Da & Na)|(pa & Ea & Da)],
           (pretty_Z_shape b) as [(pb & Eb & Db & Nb)|(pb & Eb & Db)];
    rewrite Ea, Eb in E.
  - destruct (digits_sep pa pb c s t Da Db Hc E) as [Ep ->]. split; [|done].
    apply (inj pretty). congruence.
  - exfalso. destruct pa as [|x pa]; [done|]. rewrite !string_app_cons in E.
    injection E as -> _. apply andb_true_iff in Da as [Dx _]. discriminate.
  - exfalso. destruct pb as [|x pb]; [done|]. rewrite !string_app_cons in E.
    injection E as <- _. apply andb_true_iff in Db as [Dx _]. discriminate.
  - rewrite !string_app_cons in E. injection E as E.
    destruct (digits_sep pa pb c s t Da Db Hc E) as [Ep ->]. split; [|done].
    apply (inj pretty). congruence.
Qed.

Ltac peel H :=
  repeat match type of H with String _ _ = String _ _ => injection H as H end.

Lemma slice_key_inj n2s sig (pg1 pg2 a1 a2 b1 b2 : Z) :
  cache_key n2s (slice_params sig pg1 (String_of_Z a1 ++ "-01-01") (String_of_Z b1 ++ "-12-31")) =
  cache_key n2s (slice_params sig pg2 (String_of_Z a2 ++ "-01-01") (String_of_Z b2 ++ "-12-31")) →
  a1 = a2 ∧ b1 = b2 ∧ pg1 = pg2.
Proof.
  unfold cache_key, slice_params, String_of_Z.
  cbn [page sort_by vote_count_gte vote_average_gte with_genres primary_release_date_gte
       primary_release_date_lte or_na option_map]. intros H.
  do 10 apply string_app_cancel_l in H.
  rewrite !string_app_assoc in H. rewrite ?string_app_cons in H.
  apply pretty_Z_sep in H as [-> H]; [|reflexivity].
  peel H.
  apply pretty_Z_sep in H as [-> H]; [|reflexivity].
  peel H. apply pretty_Z_sep in H as [-> _]; [|reflexivity]. done.
Qed.

Lemma slice_keys_NoDup n2s sig (year : Z) :
  List.NoDup (map (cache_key n2s) (slices_params sig year)).
Proof.
  unfold slices_params. cbn [map].
  repeat constructor; cbn [In]; intros Hin;
    repeat (destruct Hin as [Hin|Hin]; [apply slice_key_inj in Hin; lia|]); exact Hin.
Qed.

(** The four [fetchDiscoverCustom] calls of [POST] use four different cache
    keys, whatever the signature and the year: the two pages of a slice
    differ in [:p1]/[:p2], and the two slices in their release-date bounds
    [year-30]/[year-20], so no call reads or overwrites another's entry. *)
Theorem slice_cache_keys_distinct n2s sig (year : Z) :
  List.NoDup (map (cache_key n2s) (slices_params sig year)).
Proof. apply slice_keys_NoDup. Qed.

Lemma getJson_fold_other enc n2s tok apiKey now net (ps : list DiscoverParams) st k t :
  ¬ In k (map (cache_key n2s) ps) →
  getJson t k (fold_left (fun s p => snd (fetchDiscoverCustom enc n2s tok apiKey now net p s)) ps st) =
  getJson t k st.
Proof.
  revert st. induction ps as [|p ps IH]; intros st Hk; [done|]. cbn [fold_left].
  rewrite IH by (intros H; apply Hk; by right).
  destruct (fetchDiscoverCustom_store enc n2s tok apiKey now net p st) as [->|[r ->]]; [done|].
  unfold getJson, setJson. rewrite store_get_set_other; [done|]. intros ->. apply Hk. by left.
Qed.

(** What a successful miss stores: [results ?? []]. *)
Definition net_results (net : Network) (url : string) (hdrs : list (string * string)) : list TmdbMovie :=
  match net url hdrs with NetOk (Some r) => r | _ => [] end.

Lemma fold_miss_writes enc n2s tok apiKey now net (ps : list DiscoverParams) st :
  List.NoDup (map (cache_key n2s) ps) →
  (∀ p, In p ps → getJson now (cache_key n2s p) st = None) →
  (∀ p, In p ps → ∃ data, net (discover_url enc n2s apiKey p) (tmdbHeaders tok) = NetOk data) →
  ∀ p t, In p ps → now <= t < now + 43200 →
    getJson t (cache_key n2s p)
      (fold_left (fun s p => snd (fetchDiscoverCustom enc n2s tok apiKey now net p s)) ps st) =
    Some (net_results net (discover_url enc n2s apiKey p) (tmdbHeaders tok)).
Proof.
  revert st. induction ps as [|p0 ps IH]; intros st Hnd Hmiss Hok p t Hp Ht; [destruct Hp|].
  cbn [map] in Hnd. apply NoDup_cons_iff in Hnd as [Hni Hnd]. cbn [fold_left].
  destruct (Hok p0 (or_introl eq_refl)) as [data Hd].
  assert (E : snd (fetchDiscoverCustom enc n2s tok apiKey now net p0 st) =
              setJson now (cache_key n2s p0)
                (net_results net (discover_url enc n2s apiKey p0) (tmdbHeaders tok)) (12 * 60 * 60) st).
  { unfold fetchDiscoverCustom, net_results. rewrite (Hmiss p0 (or_introl eq_refl)), Hd.
    by destruct data. }
  rewrite E. destruct Hp as [<-|Hp].
  - rewrite getJson_fold_other by done. unfold getJson, setJson. rewrite store_get_set_same.
    destruct (Z.ltb_spec t (now + 12 * 60 * 60)); [done|lia].
  - apply IH; auto.
    + intros q Hq. unfold getJson, setJson. rewrite store_get_set_other; [by apply Hmiss; right|].
      intros Heq. apply Hni. rewrite <- Heq. by apply in_map.
    + intros q Hq. apply Hok. by right.
Qed.

Lemma fold_hits_stable enc n2s tok apiKey now net (ps : list DiscoverParams) st :
  (∀ p, In p ps → ∃ v, getJson now (cache_key n2s p) st = Some v) →
  fold_left (fun s p => snd (fetchDiscoverCustom enc n2s tok apiKey now net p s)) ps st = st.
Proof.
  induction ps as [|p ps IH]; intros Hh; [done|]. cbn [fold_left].
  destruct (Hh p (or_introl eq_refl)) as [v Hv].
  assert (E : snd (fetchDiscoverCustom enc n2s tok apiKey now net p st) = st)
    by (unfold fetchDiscoverCustom; by rewrite Hv).
  rewrite E. apply IH. intros q Hq. apply Hh. by right.
Qed.

Lemma POST_cards_ext StringToNumber sid day curYear (f1 f2 : Catalog) raw :
  (∀ p, In p (slices_params (makeSignature (q (parse_request raw))) curYear) → f1 p = f2 p) →
  POST_cards StringToNumber sid day curYear f1 raw = POST_cards StringToNumber sid day curYear f2 raw.
Proof.
  intros H. unfold POST_cards, pick_movies. by rewrite (map_ext_in f1 f2 _ H).
Qed.

(** [POST] through the cache: when a request found none of its four keys
    cached and succeeded, the same request (same session, day and year)
    made again within the next 12 hours gets the same cards from the cache
    alone, whatever the network does, and leaves the store as it is. *)
Theorem POST_cached_repeat StringToNumber enc n2s tok apiKey sid day curYear
    (now1 now2 : Z) (net1 net2 : Network) (st0 st1 : Store) raw (d1 : list DeckCard) :
  POST_cached enc n2s tok apiKey StringToNumber sid day curYear now1 net1 st0 raw = (Some d1, st1) →
  (∀ p, In p (slices_params (makeSignature (q (parse_request raw))) curYear) →
     getJson now1 (cache_key n2s p) st0 = None) →
  now1 <= now2 < now1 + 43200 →
  POST_cached enc n2s tok apiKey StringToNumber sid day curYear now2 net2 st1 raw = (Some d1, st1).
Proof.
  unfold POST_cached.
  set (ps := slices_params (makeSignature (q (parse_request raw))) curYear).
  intros H Hmiss Hnow.
  destruct (forallb _ ps) eqn:Hall; [|discriminate]. injection H as <- Hs.
  rewrite forallb_forall in Hall.
  assert (Hok : ∀ p, In p ps → ∃ data, net1 (discover_url enc n2s apiKey p) (tmdbHeaders tok) = NetOk data).
  { intros p Hp. specialize (Hall p Hp). unfold fetchDiscoverCustom in Hall.
    rewrite (Hmiss p Hp) in Hall. destruct (net1 _ _) as [|data]; [discriminate|]. by exists data. }
  assert (Hw := fold_miss_writes enc n2s tok apiKey now1 net1 ps st0
                  (slice_keys_NoDup n2s _ curYear) Hmiss Hok).
  assert (Hw1 : ∀ p t, In p ps → now1 <= t < now1 + 43200 →
    getJson t (cache_key n2s p) st1 =
      Some (net_results net1 (discover_url enc n2s apiKey p) (tmdbHeaders tok)))
    by (intros p t Hp Ht; rewrite <- Hs; by apply Hw).
  clear Hw. rename Hw1 into Hw.
  assert (Hfetch : ∀ p, In p ps →
    fetchDiscoverCustom enc n2s tok apiKey now2 net2 p st1 =
      (Some (net_results net1 (discover_url enc n2s apiKey p) (tmdbHeaders tok)), st1)).
  { intros p Hp. unfold fetchDiscoverCustom. by rewrite (Hw p now2 Hp Hnow). }
  rewrite fold_hits_stable; [|intros p Hp; rewrite (Hw p now2 Hp Hnow); by eexists].
  replace (forallb _ ps) with true.
  2:{ symmetry. apply forallb_forall. intros p Hp. by rewrite Hfetch. }
  do 2 f_equal. apply POST_cards_ext. intros p Hp. unfold run_catalog.
  rewrite Hfetch by done. cbn [fst].
  unfold fetchDiscoverCustom, net_results. rewrite (Hmiss p Hp).
  destruct (net1 _ _) as [|[r|]]; done.
Qed.

Lemma POST_cached_repeat_witness :
  POST_cached (fun s => s) (fun _ => "6.5"%string) None None (fun _ => NNaN) "s" "d" 2026 0
    (fun _ _ => NetOk (Some [])) [] None =
  (Some [], snd (POST_cached (fun s => s) (fun _ => "6.5"%string) None None (fun _ => NNaN) "s" "d" 2026 0
    (fun _ _ => NetOk (Some [])) [] None)) ∧
  POST_cached (fun s => s) (fun _ => "6.5"%string) None None (fun _ => NNaN) "s" "d" 2026 100
    (fun _ _ => NetFail)
    (snd (POST_cached (fun s => s) (fun _ => "6.5"%string) None None (fun _ => NNaN) "s" "d" 2026 0
       (fun _ _ => NetOk (Some [])) [] None)) None =
  (Some [], snd (POST_cached (fun s => s) (fun _ => "6.5"%string) None None (fun _ => NNaN) "s" "d" 2026 0
    (fun _ _ => NetOk (Some [])) [] None)).
Proof.
  assert (H : POST_cached (fun s => s) (fun _ => "6.5"%string) None None (fun _ => NNaN) "s" "d" 2026 0
    (fun _ _ => NetOk (Some [])) [] None =
    (Some [], snd (POST_cached (fun s => s) (fun _ => "6.5"%string) None None (fun _ => NNaN) "s" "d" 2026 0
    (fun _ _ => NetOk (Some [])) [] None))) by (vm_compute; reflexivity).
  split; [exact H|].
  apply (POST_cached_repeat _ _ _ _ _ _ _ _ 0 100 _ (fun _ _ => NetFail) [] _ None [] H);
    [intros p _; reflexivity|lia].
Defined.

(** The cache key writes an absent [with_genres] as [na], the same as the
    genre string ["na"]: after a successful uncached fetch of parameters
    without [with_genres], a call with [with_genres: "na"] and otherwise
    the same parameters is answered from that entry for 12 hours, without
    a request of its own. *)
Theorem cache_key_na_collision enc n2s tok apiKey now (net : Network) p st data :
  with_genres p = None →
  getJson now (cache_key n2s p) st = None →
  net (discover_url enc n2s apiKey p) (tmdbHeaders tok) = NetOk data →
  cache_key n2s (with_genres_as p (Some "na")) = cache_key n2s p ∧
  ∀ now' (net' : Network), now <= now' < now + 43200 →
    fetchDiscoverCustom enc n2s tok apiKey now' net' (with_genres_as p (Some "na"))
      (snd (fetchDiscoverCustom enc n2s tok apiKey now net p st)) =
    (fst (fetchDiscoverCustom enc n2s tok apiKey now net p st),
     snd (fetchDiscoverCustom enc n2s tok apiKey now net p st)).
Proof.
  intros Hg Hmiss Hd.
  assert (Ek : cache_key n2s (with_genres_as p (Some "na")) = cache_key n2s p)
    by (unfold cache_key, with_genres_as; cbn [with_genres]; by rewrite Hg).
  split; [exact Ek|]. intros now' net' Hnow.
  assert (E : fetchDiscoverCustom enc n2s tok apiKey now net p st =
      (Some (match data with Some r => r | None => [] end),
       setJson now (cache_key n2s p) (match data with Some r => r | None => [] end) (12 * 60 * 60) st))
    by (unfold fetchDiscoverCustom; by rewrite Hmiss, Hd).
  rewrite E. cbn [fst snd]. unfold fetchDiscoverCustom at 1. rewrite Ek.
  unfold getJson at 1, setJson. rewrite store_get_set_same.
  destruct (Z.ltb_spec now' (now + 12 * 60 * 60)); [done|lia].
Qed.

Lemma cache_key_na_collision_witness :
  let p := slice_params (makeSignature EmptyString) 1 "1996-01-01" "2006-12-31" in
  with_genres p = None ∧
  getJson 0 (cache_key (fun _ => "6.5"%string) p) [] = None ∧
  fetchDiscoverCustom (fun s => s) (fun _ => "6.5"%string) None None 60 (fun _ _ => NetFail)
    (with_genres_as p (Some "na"))
    (snd (fetchDiscoverCustom (fun s => s) (fun _ => "6.5"%string) None None 0
       (fun _ _ => NetOk (Some [])) p [])) =
  (fst (fetchDiscoverCustom (fun s => s) (fun _ => "6.5"%string) None None 0
       (fun _ _ => NetOk (Some [])) p []),
   snd (fetchDiscoverCustom (fun s => s) (fun _ => "6.5"%string) None None 0
       (fun _ _ => NetOk (Some [])) p [])).
Proof.
  intros p.
  assert (H1 : with_genres p = None) by reflexivity.
  assert (H2 : getJson 0 (cache_key (fun _ => "6.5"%string) p) [] = None) by reflexivity.
  split; [exact H1|]. split; [exact H2|].
  apply (proj2 (cache_key_na_collision (fun s => s) (fun _ => "6.5"%string) None None 0
    (fun _ _ => NetOk (Some [])) p [] (Some []) H1 H2 eq_refl)); lia.
Defined.
